(** * wielomiany: the line parser of the polynomial calculator (src/parse.c)

    A shallow embedding of [Parse] and of the functions it is built from,
    followed by the properties of the line grammar, of the command
    classifier and of the diagnostics that the specification states.

    Modelling conventions.
    - A [char] is an [ascii]; the [<ctype.h>] predicates are those of the
      "C" locale (the program never calls [setlocale]).
    - A [char *] is the list of bytes stored from the pointed position to the
      end of the buffer ([cstr]); [p + 1] is [tl p], [*p] is [deref p].
      All the code's reads stay inside the buffer of a NUL-terminated line;
      a read past the end of the list yields NUL.
    - [size_t] values are kept in [Z] with the wrap-around of [size - 1]
      written out; the [int] counter of [AreParenthesesValid] is kept in [Z]
      (a well-formed line is shorter than [INT_MAX], so it cannot overflow);
      [long] and [long long] are 64 bits wide (LP64).
    - [errno] is threaded through the conversions as an explicit value.
    - The error stream is the list of strings written to it. *)

From Stdlib Require Import Ascii String DecimalString.
From Stdlib Require Import List ZArith Lia Bool.
Import ListNotations.
Open Scope string_scope.
Open Scope list_scope.
Open Scope Z_scope.

(* ================================================================= *)
(** ** Characters and C strings *)

Definition cstr := list ascii.

Definition NUL : ascii := "000"%char.

Definition code (c : ascii) : Z := Z.of_N (N_of_ascii c).

Definition is_nul (c : ascii) : bool := Ascii.eqb c NUL.

Definition deref (p : cstr) : ascii := hd NUL p.

(** [items[i]] *)
Definition idx (items : cstr) (i : Z) : ascii := nth (Z.to_nat i) items NUL.

(** A string literal of the source: its characters and the terminating NUL. *)
Definition lit (s : string) : cstr := list_ascii_of_string s ++ [NUL].

(** [<ctype.h>], "C" locale. *)
Definition isdigit (c : ascii) : bool := (48 <=? code c) && (code c <=? 57).

Definition isalpha (c : ascii) : bool :=
  ((65 <=? code c) && (code c <=? 90)) || ((97 <=? code c) && (code c <=? 122)).

Definition isspace (c : ascii) : bool :=
  (code c =? 32) || ((9 <=? code c) && (code c <=? 13)).

(** [<string.h>] *)
Fixpoint strlen (s : cstr) : Z :=
  match s with
  | [] => 0
  | c :: t => if is_nul c then 0 else 1 + strlen t
  end.

Fixpoint strcmp (a b : cstr) : Z :=
  match a with
  | [] => 0 - code (deref b)
  | x :: a' =>
      if Ascii.eqb x (deref b)
      then if is_nul x then 0 else strcmp a' (tl b)
      else code x - code (deref b)
  end.

Fixpoint strncmp (a b : cstr) (n : nat) : Z :=
  match n with
  | O => 0
  | S n' =>
      if Ascii.eqb (deref a) (deref b)
      then if is_nul (deref a) then 0 else strncmp (tl a) (tl b) n'
      else code (deref a) - code (deref b)
  end.

(* ================================================================= *)
(** ** [<limits.h>], [<errno.h>] and the [strto*] conversions (ISO C 7.22.1.4) *)

Definition INT_MAX : Z := 2 ^ 31 - 1.
Definition LONG_MAX : Z := 2 ^ 63 - 1.
Definition LONG_MIN : Z := - 2 ^ 63.
Definition LLONG_MAX : Z := 2 ^ 63 - 1.
Definition LLONG_MIN : Z := - 2 ^ 63.
Definition ULLONG_MAX : Z := 2 ^ 64 - 1.
Definition SIZE_MOD : Z := 2 ^ 64.
Definition ERANGE : Z := 34.

Definition digit_val (c : ascii) : Z := code c - 48.

Fixpoint skip_space (s : cstr) : cstr :=
  match s with
  | c :: t => if isspace c then skip_space t else s
  | [] => s
  end.

(** The longest run of decimal digits at [s], accumulated onto [acc], and
    the position of the first character after it. *)
Fixpoint scan_digits (s : cstr) (acc : Z) : Z * cstr :=
  match s with
  | c :: t => if isdigit c then scan_digits t (10 * acc + digit_val c) else (acc, s)
  | [] => (acc, s)
  end.

(** The subject sequence of a base-10 conversion: optional white space, an
    optional sign, a nonempty run of digits.  [None] when there is none. *)
Definition subject (nptr : cstr) : option (bool * Z * cstr) :=
  let s := skip_space nptr in
  let '(neg, s1) :=
    if Ascii.eqb (deref s) "-" then (true, tl s)
    else if Ascii.eqb (deref s) "+" then (false, tl s)
    else (false, s) in
  if isdigit (deref s1)
  then let '(v, e) := scan_digits s1 0 in Some (neg, v, e)
  else None.

(** Each conversion returns the value, the end pointer and the new [errno]. *)
Definition strtoll (errno : Z) (nptr : cstr) : Z * cstr * Z :=
  match subject nptr with
  | None => (0, nptr, errno)
  | Some (neg, v, e) =>
      let x := if neg then - v else v in
      if x <? LLONG_MIN then (LLONG_MIN, e, ERANGE)
      else if LLONG_MAX <? x then (LLONG_MAX, e, ERANGE)
      else (x, e, errno)
  end.

Definition strtol (errno : Z) (nptr : cstr) : Z * cstr * Z :=
  match subject nptr with
  | None => (0, nptr, errno)
  | Some (neg, v, e) =>
      let x := if neg then - v else v in
      if x <? LONG_MIN then (LONG_MIN, e, ERANGE)
      else if LONG_MAX <? x then (LONG_MAX, e, ERANGE)
      else (x, e, errno)
  end.

Definition strtoull (errno : Z) (nptr : cstr) : Z * cstr * Z :=
  match subject nptr with
  | None => (0, nptr, errno)
  | Some (neg, v, e) =>
      if ULLONG_MAX <? v then (ULLONG_MAX, e, ERANGE)
      else ((if neg then (- v) mod SIZE_MOD else v), e, errno)
  end.

(* ================================================================= *)
(** ** The collaborators of the parser: vector.h, poly.h, line.h *)

(** [CVector]: a growable [char] array; a line read from the input is stored
    with its terminating NUL, which [size] counts. *)
Record CVector : Type := mkCVector { items : cstr; size : Z }.

(** The vector holding the line whose characters are [body]. *)
Definition line_of (body : list ascii) : CVector :=
  {| items := body ++ [NUL]; size := Z.of_nat (length body) + 1 |}.

(** The characters of the line, without the terminator. *)
Definition body (cv : CVector) : list ascii := removelast (items cv).

(** A line as the reader hands it over: [size] bytes, the last one NUL. *)
Definition wf_line (cv : CVector) : Prop :=
  cv = line_of (body cv) /\ size cv <= INT_MAX.

(** Modelled from the spec: poly.h is not part of the sources at hand, so
    the values built by [PolyFromCoeff], [MonoFromPoly] and [PolyAddMonos]
    are kept as the tree of the constructor calls the parser makes (a
    Constant, or a Sum-of-terms over (coefficient polynomial, exponent)
    terms), without the engine's normalisation. *)
Inductive Poly : Type :=
| PolyFromCoeff (c : Z)
| PolyAddMonos (monos : list Mono)
with Mono : Type :=
| MonoFromPoly (p : Poly) (exp : Z).

Inductive Command : Type :=
| ZERO | IS_COEFF | IS_ZERO | CLONE | ADD | MUL | NEG | SUB | IS_EQ | DEG
| PRINT | POP | DEG_BY | AT | COMPOSE.

(** Modelled from the spec: line.h is not part of the sources at hand; a
    Parsed Line is an Error, a Command (a tag plus an optional integer
    argument) or a PolynomialLiteral.  The argument is kept as the integer
    the parser passes. *)
Inductive Line : Type :=
| WrongLine
| CommandLine (c : Command)
| CommandLineWithArg (c : Command) (arg : Z)
| PolyLine (p : Poly).

(* ================================================================= *)
(** ** parse.h: the diagnostics *)

Definition newline : string := String "010"%char EmptyString.

(** [%zu] *)
Definition zu (n : N) : string := NilZero.string_of_uint (N.to_uint n).

(** [PrintErrorMsg]: what the call appends to the error stream. *)
Definition PrintErrorMsg (lineNr : N) (msg : string) : list string :=
  [("ERROR " ++ zu lineNr ++ " " ++ msg ++ newline)%string].

Definition DEG_BY_WRONG_VARIABLE : string := "DEG BY WRONG VARIABLE".
Definition AT_WRONG_VALUE : string := "AT WRONG VALUE".
Definition COMPOSE_WRONG_PARAMETER : string := "COMPOSE WRONG PARAMETER".
Definition WRONG_COMMAND : string := "WRONG COMMAND".
Definition WRONG_POLY : string := "WRONG POLY".

(* ================================================================= *)
(** ** parse.c: predicates on lines *)

Definition IsPrefix (pre str : cstr) : bool :=
  strncmp pre str (Z.to_nat (strlen pre)) =? 0.

Definition IsCorrectCommand (cv : CVector) (str : cstr) : bool :=
  let len := strlen str in
  IsPrefix str (items cv) &&
  (((len <? size cv) && isspace (idx (items cv) len)) ||
   (((size cv - 1) mod SIZE_MOD =? len) && is_nul (idx (items cv) len))).

Definition IsEqual (cv : CVector) (str : cstr) : bool :=
  (size cv =? strlen str + 1) && (strcmp (items cv) str =? 0).

Definition IsLegalCaracter (c : ascii) : bool :=
  isdigit c || Ascii.eqb c "-" || Ascii.eqb c "+" || Ascii.eqb c "(" ||
  Ascii.eqb c ")" || Ascii.eqb c ",".

(** The loop visits [items[0]] .. [items[size - 2]] and stops at the first
    illegal character. *)
Definition HasIllegalCharacters (str : CVector) : bool :=
  existsb (fun c => negb (IsLegalCaracter c))
          (firstn (Z.to_nat ((size str - 1) mod SIZE_MOD)) (items str)).

Definition IsDigitOrMinus (c : ascii) : bool := isdigit c || Ascii.eqb c "-".

(** The loop of [AreParenthesesValid], which runs while the current
    character is not NUL and [ctr >= 0]: the counter on exit. *)
Fixpoint paren_loop (s : cstr) (ctr : Z) : Z :=
  match s with
  | [] => ctr
  | c :: t =>
      if negb (is_nul c) && (0 <=? ctr)
      then paren_loop t (if Ascii.eqb c "(" then ctr + 1
                         else if Ascii.eqb c ")" then ctr - 1
                         else ctr)
      else ctr
  end.

Definition AreParenthesesValid (s : cstr) : bool := paren_loop s 0 =? 0.

Definition HasDegByAnArgument (str : CVector) : bool :=
  (8 <=? size str) && Ascii.eqb (idx (items str) 6) " " &&
  isdigit (idx (items str) 7).

Definition HasComposeAnArgument (str : CVector) : bool :=
  (9 <=? size str) && Ascii.eqb (idx (items str) 7) " " &&
  isdigit (idx (items str) 8).

Definition HasAtAnArgument (str : CVector) : bool :=
  (4 <=? size str) && Ascii.eqb (idx (items str) 2) " " &&
  IsDigitOrMinus (idx (items str) 3).

(** [end - str->items], for [end] pointing into the buffer of [str]. *)
Definition ptr_diff (end_ base : cstr) : Z :=
  Z.of_nat (length base) - Z.of_nat (length end_).

Definition ArgumentError (errno : Z) (str : CVector) (end_ : cstr) : bool :=
  (errno =? ERANGE) || negb (is_nul (deref end_)) ||
  negb (ptr_diff end_ (items str) mod SIZE_MOD =? (size str - 1) mod SIZE_MOD).

(* ================================================================= *)
(** ** parse.c: the command classifier *)

(** The result of a conversion together with what it wrote to the error
    stream. *)
Definition Emitting (A : Type) : Type := (A * list string)%type.

Definition ParseCommand (str : CVector) (lineNr : N) : Emitting Line :=
  if IsEqual str (lit "ZERO") then (CommandLine ZERO, [])
  else if IsEqual str (lit "IS_COEFF") then (CommandLine IS_COEFF, [])
  else if IsEqual str (lit "IS_ZERO") then (CommandLine IS_ZERO, [])
  else if IsEqual str (lit "CLONE") then (CommandLine CLONE, [])
  else if IsEqual str (lit "ADD") then (CommandLine ADD, [])
  else if IsEqual str (lit "MUL") then (CommandLine MUL, [])
  else if IsEqual str (lit "NEG") then (CommandLine NEG, [])
  else if IsEqual str (lit "SUB") then (CommandLine SUB, [])
  else if IsEqual str (lit "IS_EQ") then (CommandLine IS_EQ, [])
  else if IsEqual str (lit "DEG") then (CommandLine DEG, [])
  else if IsEqual str (lit "PRINT") then (CommandLine PRINT, [])
  else if IsEqual str (lit "POP") then (CommandLine POP, [])
  else if IsCorrectCommand str (lit "DEG_BY") then
    if HasDegByAnArgument str then
      let '(arg, end_, errno) := strtoull 0 (skipn 7 (items str)) in
      if ArgumentError errno str end_
      then (WrongLine, PrintErrorMsg lineNr DEG_BY_WRONG_VARIABLE)
      else (CommandLineWithArg DEG_BY arg, [])
    else (WrongLine, PrintErrorMsg lineNr DEG_BY_WRONG_VARIABLE)
  else if IsCorrectCommand str (lit "AT") then
    if HasAtAnArgument str then
      let '(arg, end_, errno) := strtoll 0 (skipn 3 (items str)) in
      if ArgumentError errno str end_
      then (WrongLine, PrintErrorMsg lineNr AT_WRONG_VALUE)
      else (CommandLineWithArg AT arg, [])
    else (WrongLine, PrintErrorMsg lineNr AT_WRONG_VALUE)
  else if IsCorrectCommand str (lit "COMPOSE") then
    if HasComposeAnArgument str then
      let '(arg, end_, errno) := strtoull 0 (skipn 8 (items str)) in
      if ArgumentError errno str end_
      then (WrongLine, PrintErrorMsg lineNr COMPOSE_WRONG_PARAMETER)
      else (CommandLineWithArg COMPOSE arg, [])
    else (WrongLine, PrintErrorMsg lineNr COMPOSE_WRONG_PARAMETER)
  else (WrongLine, PrintErrorMsg lineNr WRONG_COMMAND).

(* ================================================================= *)
(** ** parse.c: the expression parser *)

(** What a parsing function leaves behind: [Failed] when it set [*err],
    otherwise the value it returns and the [*end] it stored.  The mutual
    recursion of [ParsePolyHelper] and [ParseMono] follows the text, not a
    structure of the data, so the functions take a bound on the depth of
    calls and answer [OutOfFuel] when it is reached; [fuel_for] below is a
    bound that is never reached. *)
Inductive outcome (A : Type) : Type :=
| OutOfFuel
| Failed
| Parsed (a : A).
Arguments OutOfFuel {A}.
Arguments Failed {A}.
Arguments Parsed {A} a.

Definition ParseExp (begin : cstr) : outcome (Z * cstr) :=
  if negb (isdigit (deref begin)) then Failed
  else
    let '(x, end_, errno) := strtol 0 begin in
    if (errno =? ERANGE) || negb (Ascii.eqb (deref end_) ")") || (INT_MAX <? x)
    then Failed
    else Parsed (x, end_).

Fixpoint ParsePolyHelper (fuel : nat) (begin : cstr) {struct fuel}
  : outcome (Poly * cstr) :=
  match fuel with
  | O => OutOfFuel
  | S fuel =>
      if is_nul (deref begin) then Failed
      else if IsDigitOrMinus (deref begin) then
        let '(x, end_, errno) := strtoll 0 begin in
        if (errno =? ERANGE) ||
           (negb (Ascii.eqb (deref end_) ",") && negb (is_nul (deref end_)))
        then Failed
        else Parsed (PolyFromCoeff x, end_)
      else MonoLoop fuel begin []
  end

(** The [while (true)] loop of [ParsePolyHelper], entered with [begin] and
    the monomials pushed so far. *)
with MonoLoop (fuel : nat) (begin : cstr) (monos : list Mono) {struct fuel}
  : outcome (Poly * cstr) :=
  match fuel with
  | O => OutOfFuel
  | S fuel =>
      if negb (Ascii.eqb (deref begin) "(") then Failed
      else
        match ParseMono fuel (tl begin) with
        | OutOfFuel => OutOfFuel
        | Failed => Failed
        | Parsed (m, end_) =>
            let monos := monos ++ [m] in
            let end_ := tl end_ in
            if is_nul (deref end_) || Ascii.eqb (deref end_) ","
            then Parsed (PolyAddMonos monos, end_)
            else if negb (Ascii.eqb (deref end_) "+") then Failed
            else MonoLoop fuel (tl end_) monos
        end
  end

with ParseMono (fuel : nat) (begin : cstr) {struct fuel}
  : outcome (Mono * cstr) :=
  match fuel with
  | O => OutOfFuel
  | S fuel =>
      if is_nul (deref begin) then Failed
      else
        match ParsePolyHelper fuel begin with
        | OutOfFuel => OutOfFuel
        | Failed => Failed
        | Parsed (p, end_) =>
            if is_nul (deref end_) then Failed
            else
              match ParseExp (tl end_) with
              | OutOfFuel => OutOfFuel
              | Failed => Failed
              | Parsed (exp, end_) => Parsed (MonoFromPoly p exp, end_)
              end
        end
  end.

(** A depth of calls no run on [s] reaches. *)
Definition fuel_for (s : cstr) : nat := 3 * length s + 3.

(** [None] stands for a run that exhausted the depth bound; [Parse_returns]
    shows there is none. *)
Definition ParsePoly (str : CVector) (lineNr : N) : option (Emitting Line) :=
  if HasIllegalCharacters str || negb (AreParenthesesValid (items str))
  then Some (WrongLine, PrintErrorMsg lineNr WRONG_POLY)
  else
    match ParsePolyHelper (fuel_for (items str)) (items str) with
    | OutOfFuel => None
    | Failed => Some (WrongLine, PrintErrorMsg lineNr WRONG_POLY)
    | Parsed (p, end_) =>
        if negb (is_nul (deref end_))
        then Some (WrongLine, PrintErrorMsg lineNr WRONG_POLY)
        else Some (PolyLine p, [])
    end.

Definition Parse (str : CVector) (lineNr : N) : option (Emitting Line) :=
  if isalpha (idx (items str) 0)
  then Some (ParseCommand str lineNr)
  else ParsePoly str lineNr.

(* ================================================================= *)
(** ** The grammar of polynomial literals, in the specification's words *)

(** [digit+] *)
Definition digits (ds : list ascii) : Prop :=
  ds <> [] /\ Forall (fun c => isdigit c = true) ds.

(** The number a digit sequence denotes. *)
Definition dstep (a : Z) (c : ascii) : Z := 10 * a + digit_val c.

Definition dec_value (ds : list ascii) : Z := fold_left dstep ds 0.

(** ['-'] *)
Definition sign (neg : bool) : list ascii := if neg then ["-"%char] else [].

Definition signed (neg : bool) (v : Z) : Z := if neg then - v else v.

(** [Polynomial := Coefficient | TermSum], [TermSum := Term ('+' Term)*],
    [Term := '(' Polynomial ',' Exponent ')'], each with the value the text
    denotes: numbers keep their mathematical value, whatever their size. *)
Inductive Polynomial : list ascii -> Poly -> Prop :=
| Coefficient_lit neg ds :
    digits ds ->
    Polynomial (sign neg ++ ds) (PolyFromCoeff (signed neg (dec_value ds)))
| TermSum_lit s ms :
    TermSum s ms -> Polynomial s (PolyAddMonos ms)
with TermSum : list ascii -> list Mono -> Prop :=
| TermSum_one s m :
    Term s m -> TermSum s [m]
| TermSum_more s m s' ms :
    Term s m -> TermSum s' ms -> TermSum (s ++ "+"%char :: s') (m :: ms)
with Term : list ascii -> Mono -> Prop :=
| Term_lit s p ds :
    Polynomial s p -> digits ds ->
    Term ("("%char :: s ++ ","%char :: ds ++ [")"%char])
         (MonoFromPoly p (dec_value ds)).

Scheme Polynomial_mind := Induction for Polynomial Sort Prop
  with TermSum_mind := Induction for TermSum Sort Prop
  with Term_mind := Induction for Term Sort Prop.
Combined Scheme grammar_mutind from Polynomial_mind, TermSum_mind, Term_mind.

(** The ranges the data model gives: a coefficient fits a signed 64-bit
    integer, an exponent fits a non-negative [int]. *)
Definition coeff_in_range (c : Z) : bool := (LLONG_MIN <=? c) && (c <=? LLONG_MAX).
Definition exp_in_range (e : Z) : bool := (0 <=? e) && (e <=? INT_MAX).

Fixpoint in_range (p : Poly) : bool :=
  match p with
  | PolyFromCoeff c => coeff_in_range c
  | PolyAddMonos ms =>
      forallb (fun m => match m with
                        | MonoFromPoly q e => in_range q && exp_in_range e
                        end) ms
  end.

Definition mono_in_range (m : Mono) : bool :=
  match m with MonoFromPoly q e => in_range q && exp_in_range e end.

(** The parentheses of a text are balanced: the counter of open ones never
    goes negative and returns to zero. *)
Definition paren_step (ctr : Z) (c : ascii) : Z :=
  if Ascii.eqb c "(" then ctr + 1 else if Ascii.eqb c ")" then ctr - 1 else ctr.

Definition balanced (s : list ascii) : Prop :=
  fold_left paren_step s 0 = 0 /\
  forall k, 0 <= fold_left paren_step (firstn k s) 0.

Definition legal_text (s : list ascii) : Prop :=
  Forall (fun c => IsLegalCaracter c = true) s.

(** A polynomial ends where the line ends or where a ',' follows. *)
Definition is_stop (c : ascii) : bool := is_nul c || Ascii.eqb c ",".

Definition nul_free (s : list ascii) : Prop :=
  Forall (fun c => is_nul c = false) s.

(** What [ParsePoly] answers for a line it rejects. *)
Definition wrong_poly (lineNr : N) : Emitting Line :=
  (WrongLine, PrintErrorMsg lineNr WRONG_POLY).

(** [Coefficient := ['-'] digit+], as a set of texts. *)
Definition Coefficient (s : list ascii) : Prop :=
  exists neg ds, digits ds /\ s = sign neg ++ ds.

(** The characters of a string literal, for stating examples. *)
Definition text (s : string) : list ascii := list_ascii_of_string s.

(* ================================================================= *)
(** ** The command vocabulary, in the specification's words *)

Definition keyword (c : Command) : string :=
  match c with
  | ZERO => "ZERO" | IS_COEFF => "IS_COEFF" | IS_ZERO => "IS_ZERO"
  | CLONE => "CLONE" | ADD => "ADD" | MUL => "MUL" | NEG => "NEG"
  | SUB => "SUB" | IS_EQ => "IS_EQ" | DEG => "DEG" | PRINT => "PRINT"
  | POP => "POP" | DEG_BY => "DEG_BY" | AT => "AT" | COMPOSE => "COMPOSE"
  end.

(** The three commands that require an argument. *)
Definition takes_argument (c : Command) : bool :=
  match c with DEG_BY | AT | COMPOSE => true | _ => false end.

(** The message reported for a wrong argument of each of them. *)
Definition argument_message (c : Command) : string :=
  match c with
  | DEG_BY => DEG_BY_WRONG_VARIABLE
  | AT => AT_WRONG_VALUE
  | COMPOSE => COMPOSE_WRONG_PARAMETER
  | _ => WRONG_COMMAND
  end.

(** [arg] is a non-negative integer that fits [size_t], of value [v]. *)
Definition unsigned_argument (arg : list ascii) (v : Z) : Prop :=
  digits arg /\ v = dec_value arg /\ v <= ULLONG_MAX.

(** [arg] is a signed integer in the coefficient's range, of value [v]. *)
Definition signed_argument (arg : list ascii) (v : Z) : Prop :=
  exists neg ds, digits ds /\ arg = sign neg ++ ds /\
                 v = signed neg (dec_value ds) /\ LLONG_MIN <= v <= LLONG_MAX.

(** [arg] is an argument of the command [c], of value [v]. *)
Definition argument_of (c : Command) (arg : list ascii) (v : Z) : Prop :=
  match c with
  | DEG_BY | COMPOSE => unsigned_argument arg v
  | AT => signed_argument arg v
  | _ => False
  end.

(** The line is the keyword of [c], one space and an argument of value [v]. *)
Definition command_with_argument (c : Command) (b : list ascii) (v : Z) : Prop :=
  exists arg, b = text (keyword c) ++ " "%char :: arg /\ argument_of c arg v.

(** What the classifier answers, by the kind of line. *)
Definition exact_command (c : Command) (b : list ascii) : Prop :=
  takes_argument c = false /\ b = text (keyword c).

Definition wrong_argument (c : Command) (lineNr : N) : Emitting Line :=
  (WrongLine, PrintErrorMsg lineNr (argument_message c)).

Definition wrong_command (lineNr : N) : Emitting Line :=
  (WrongLine, PrintErrorMsg lineNr WRONG_COMMAND).

(** The shape the specification gives to what may follow a keyword: the end
    of the line, or exactly one white-space character and an argument. *)
Definition followed_by_end_or_argument (kw b : list ascii) : Prop :=
  b = kw \/
  exists c arg, b = kw ++ c :: arg /\ isspace c = true /\
                arg <> [] /\ isspace (deref arg) = false.

(** The messages of the parser. *)
Definition parser_messages : list string :=
  [WRONG_COMMAND; WRONG_POLY; DEG_BY_WRONG_VARIABLE; AT_WRONG_VALUE;
   COMPOSE_WRONG_PARAMETER].

(* ================================================================= *)
(** ** Proofs *)

Lemma code_inj c d : code c = code d -> c = d.
Proof.
  unfold code. intros H. apply N2Z.inj in H.
  rewrite <- (ascii_N_embedding c), <- (ascii_N_embedding d). now f_equal.
Qed.

Lemma eqb_code c d : Ascii.eqb c d = (code c =? code d).
Proof.
  destruct (Ascii.eqb_spec c d) as [->|N].
  - now rewrite Z.eqb_refl.
  - symmetry. apply Z.eqb_neq. intros E. now apply N, code_inj.
Qed.

Lemma code_range c : 0 <= code c < 256.
Proof. unfold code. pose proof (N_ascii_bounded c). lia. Qed.

Ltac char_norm :=
  unfold is_nul, IsDigitOrMinus, IsLegalCaracter, isdigit, isalpha, isspace,
         digit_val, NUL in *;
  rewrite ?eqb_code in *;
  change (code "000") with 0 in *;
  change (code "-") with 45 in *;
  change (code "+") with 43 in *;
  change (code "(") with 40 in *;
  change (code ")") with 41 in *;
  change (code ",") with 44 in *;
  change (code " ") with 32 in *.

Ltac char_lia :=
  char_norm;
  repeat match goal with
  | c : ascii |- _ => lazymatch goal with
                      | _ : 0 <= code c < 256 |- _ => fail
                      | _ => pose proof (code_range c)
                      end
  end;
  lia.

Ltac bool_cases :=
  repeat match goal with
         | |- context [if ?b then _ else _] =>
             let E := fresh "E" in destruct b eqn:E
         end.

Ltac hyp_cases H :=
  repeat (cbv beta iota zeta in H;
          match type of H with
          | context [if ?b then _ else _] =>
              let E := fresh "E" in destruct b eqn:E
          end);
  cbv beta iota zeta in H; try discriminate H.

(** *** Digit runs *)

Lemma dec_value_eq ds : dec_value ds = fold_left dstep ds 0.
Proof. reflexivity. Qed.

Lemma scan_digits_app ds rest acc :
  Forall (fun c => isdigit c = true) ds ->
  isdigit (deref rest) = false ->
  scan_digits (ds ++ rest) acc = (fold_left dstep ds acc, rest).
Proof.
  intros Hds Hrest. revert acc.
  induction Hds as [|c ds Hc _ IH]; intros acc; simpl.
  - destruct rest as [|r rest]; [reflexivity|]. simpl in Hrest |- *.
    now rewrite Hrest.
  - rewrite Hc. apply IH.
Qed.

Lemma scan_digits_inv s : forall acc v e,
  scan_digits s acc = (v, e) ->
  exists ds, s = ds ++ e /\ Forall (fun c => isdigit c = true) ds /\
             v = fold_left dstep ds acc /\ isdigit (deref e) = false.
Proof.
  induction s as [|c s IH]; intros acc v e H; simpl in H.
  - inversion H; subst. exists []. now repeat split.
  - destruct (isdigit c) eqn:Hc.
    + destruct (IH _ _ _ H) as (ds & -> & Hds & -> & He).
      exists (c :: ds). repeat split; auto.
    + inversion H; subst. exists []. repeat split; auto.
Qed.

Lemma dstep_nonneg ds : forall acc,
  Forall (fun c => isdigit c = true) ds -> 0 <= acc -> 0 <= fold_left dstep ds acc.
Proof.
  induction ds as [|c ds IH]; intros acc H Hacc; simpl; [lia|].
  inversion H; subst. apply IH; auto. unfold dstep. char_lia.
Qed.

Lemma dec_value_nonneg ds :
  Forall (fun c => isdigit c = true) ds -> 0 <= dec_value ds.
Proof. intros. apply dstep_nonneg; auto. lia. Qed.

Lemma skip_space_id s : isspace (deref s) = false -> skip_space s = s.
Proof. destruct s as [|c s]; simpl; [reflexivity|]. now intros ->. Qed.

(** *** The subject sequence of a conversion *)

Lemma subject_literal neg ds rest :
  digits ds -> isdigit (deref rest) = false ->
  subject (sign neg ++ ds ++ rest) = Some (neg, dec_value ds, rest).
Proof.
  intros [Hne Hds] Hrest.
  destruct ds as [|d ds]; [congruence|]. inversion Hds as [|? ? Hd Hds']; subst.
  unfold subject.
  destruct neg; simpl sign; simpl app.
  - rewrite skip_space_id by (simpl; char_lia). simpl deref. simpl tl.
    change (Ascii.eqb "-" "-") with true. cbv iota.
    change (deref (d :: ds ++ rest)) with d. rewrite Hd.
    change (d :: ds ++ rest) with ((d :: ds) ++ rest).
    rewrite scan_digits_app by auto. reflexivity.
  - rewrite skip_space_id by (simpl; char_lia). simpl deref.
    replace (Ascii.eqb d "-") with false by (symmetry; char_lia).
    replace (Ascii.eqb d "+") with false by (symmetry; char_lia).
    change (deref (d :: ds ++ rest)) with d. rewrite Hd.
    change (d :: ds ++ rest) with ((d :: ds) ++ rest).
    rewrite scan_digits_app by auto. reflexivity.
Qed.

Lemma subject_inv s neg v e :
  IsDigitOrMinus (deref s) = true ->
  subject s = Some (neg, v, e) ->
  exists ds, digits ds /\ s = sign neg ++ ds ++ e /\ v = dec_value ds /\
             isdigit (deref e) = false.
Proof.
  intros Hg H. unfold subject in H.
  rewrite skip_space_id in H by char_lia.
  destruct (Ascii.eqb (deref s) "-") eqn:Hm.
  - destruct (isdigit (deref (tl s))) eqn:Hd; [|discriminate].
    destruct (scan_digits (tl s) 0) as [v' e'] eqn:Hs. inversion H; subst.
    destruct (scan_digits_inv _ _ _ _ Hs) as (ds & Htl & Hds & -> & He).
    exists ds. repeat split; auto.
    + intros ->. simpl in Htl. rewrite Htl in Hd. congruence.
    + destruct s as [|c s]; [simpl in Hm; discriminate|].
      simpl in Hm, Htl. apply Ascii.eqb_eq in Hm. subst. reflexivity.
  - replace (Ascii.eqb (deref s) "+") with false in H by (symmetry; char_lia).
    destruct (isdigit (deref s)) eqn:Hd; [|discriminate].
    destruct (scan_digits s 0) as [v' e'] eqn:Hs. inversion H; subst.
    destruct (scan_digits_inv _ _ _ _ Hs) as (ds & Hsd & Hds & -> & He).
    exists ds. repeat split; auto.
    intros ->. simpl in Hsd. subst. congruence.
Qed.

Lemma subject_none_minus s :
  IsDigitOrMinus (deref s) = true -> subject s = None -> deref s = "-"%char.
Proof.
  intros Hg H. unfold subject in H.
  rewrite skip_space_id in H by char_lia.
  destruct (Ascii.eqb (deref s) "-") eqn:Hm.
  - now apply Ascii.eqb_eq in Hm.
  - replace (Ascii.eqb (deref s) "+") with false in H by (symmetry; char_lia).
    destruct (isdigit (deref s)) eqn:Hd.
    + destruct (scan_digits s 0); discriminate.
    + char_lia.
Qed.

(** *** The conversions on the texts the parser hands them *)

Lemma strtoll_literal neg ds rest errno :
  digits ds -> isdigit (deref rest) = false ->
  strtoll errno (sign neg ++ ds ++ rest) =
    let x := signed neg (dec_value ds) in
    if coeff_in_range x then (x, rest, errno)
    else ((if x <? LLONG_MIN then LLONG_MIN else LLONG_MAX), rest, ERANGE).
Proof.
  intros Hd Hr. unfold strtoll. rewrite subject_literal by auto.
  unfold signed, coeff_in_range. cbv zeta.
  destruct (_ <? LLONG_MIN) eqn:E1.
  - replace (LLONG_MIN <=? _) with false by lia. reflexivity.
  - replace (LLONG_MIN <=? _) with true by lia. simpl.
    destruct (LLONG_MAX <? _) eqn:E2.
    + replace (_ <=? LLONG_MAX) with false by lia. reflexivity.
    + replace (_ <=? LLONG_MAX) with true by lia. reflexivity.
Qed.

Lemma strtoll_inv s x e errno :
  IsDigitOrMinus (deref s) = true ->
  strtoll 0 s = (x, e, errno) ->
  (e = s /\ deref s = "-"%char) \/
  (exists neg ds, digits ds /\ s = sign neg ++ ds ++ e /\
     isdigit (deref e) = false /\
     ((errno = 0 /\ x = signed neg (dec_value ds) /\ coeff_in_range x = true) \/
      (errno = ERANGE /\ coeff_in_range (signed neg (dec_value ds)) = false))).
Proof.
  intros Hg H. unfold strtoll in H.
  destruct (subject s) as [[[neg v] e']|] eqn:Hs.
  - right. destruct (subject_inv _ _ _ _ Hg Hs) as (ds & Hd & -> & -> & He).
    exists neg, ds. fold (signed neg (dec_value ds)) in H.
    unfold coeff_in_range.
    destruct (_ <? LLONG_MIN) eqn:E1.
    { inversion H; subst. split; [exact Hd|]. split; [reflexivity|].
      split; [exact He|]. right. split; [reflexivity|lia]. }
    destruct (LLONG_MAX <? _) eqn:E2; inversion H; subst;
      (split; [exact Hd|]; split; [reflexivity|]; split; [exact He|]).
    + right; split; [reflexivity|lia].
    + left. repeat split; lia.
  - left. inversion H; subst. split; [reflexivity|]. now apply subject_none_minus.
Qed.

Lemma ParseExp_literal ds rest :
  digits ds ->
  ParseExp (ds ++ ")"%char :: rest) =
    if exp_in_range (dec_value ds)
    then Parsed (dec_value ds, ")"%char :: rest) else Failed.
Proof.
  intros Hd. pose proof Hd as [Hne Hall].
  pose proof (dec_value_nonneg _ Hall) as Hnn.
  unfold ParseExp.
  destruct ds as [|d ds]; [congruence|]. inversion Hall; subst.
  change (deref ((d :: ds) ++ ")"%char :: rest)) with d.
  replace (isdigit d) with true by auto. simpl negb. cbv iota.
  unfold strtol.
  pose proof (subject_literal false (d :: ds) (")"%char :: rest) Hd eq_refl) as Hs.
  simpl sign in Hs. simpl app in Hs |- *. rewrite Hs. clear Hs.
  unfold exp_in_range, LONG_MIN, LONG_MAX, INT_MAX, ERANGE in *.
  set (v := dec_value (d :: ds)) in *. clearbody v.
  destruct (v <? - 2 ^ 63) eqn:E0; [lia|].
  destruct (2 ^ 63 - 1 <? v) eqn:E1; cbv beta iota zeta;
    change (deref (")"%char :: rest)) with ")"%char;
    change (Ascii.eqb ")" ")") with true;
    bool_cases; try reflexivity; lia.
Qed.

Lemma ParseExp_inv s x e :
  ParseExp s = Parsed (x, e) ->
  exists ds, digits ds /\ s = ds ++ e /\ x = dec_value ds /\
             deref e = ")"%char /\ exp_in_range x = true.
Proof.
  unfold ParseExp. intros H.
  destruct (isdigit (deref s)) eqn:Hd; simpl negb in H; [|discriminate].
  assert (Hg : IsDigitOrMinus (deref s) = true)
    by (unfold IsDigitOrMinus; now rewrite Hd).
  unfold strtol in H.
  destruct (subject s) as [[[neg v] e']|] eqn:Hs.
  - destruct (subject_inv _ _ _ _ Hg Hs) as (ds & Hds & Heq & -> & He).
    assert (neg = false) as ->.
    { destruct neg; [|reflexivity]. rewrite Heq in Hd. simpl in Hd. discriminate. }
    pose proof (dec_value_nonneg _ (proj2 Hds)) as Hnn.
    remember (dec_value ds) as v eqn:Hv.
    unfold LONG_MIN, LONG_MAX, INT_MAX, ERANGE in *.
    hyp_cases H; try (exfalso; lia). injection H as Hx He'. rewrite <- Hx, <- He'.
    exists ds. split; [exact Hds|]. split; [exact Heq|]. split; [exact Hv|].
    split; [apply Ascii.eqb_eq; destruct (Ascii.eqb (deref e') ")"); [reflexivity|lia]|].
    unfold exp_in_range, INT_MAX. lia.
  - hyp_cases H. injection H as Hx He'. subst. char_lia.
Qed.

(** *** The parser accepts only what the grammar derives *)

Lemma deref_cons (s : cstr) c : deref s = c -> c <> NUL -> s = c :: tl s.
Proof. destruct s as [|x s]; simpl; intros H N; congruence. Qed.

Lemma PPH_unfold fuel begin :
  ParsePolyHelper (S fuel) begin =
    if is_nul (deref begin) then Failed
    else if IsDigitOrMinus (deref begin) then
      let '(x, end_, errno) := strtoll 0 begin in
      if (errno =? ERANGE) ||
         (negb (Ascii.eqb (deref end_) ",") && negb (is_nul (deref end_)))
      then Failed
      else Parsed (PolyFromCoeff x, end_)
    else MonoLoop fuel begin [].
Proof. reflexivity. Qed.

Lemma MonoLoop_unfold fuel begin monos :
  MonoLoop (S fuel) begin monos =
    if negb (Ascii.eqb (deref begin) "(") then Failed
    else
      match ParseMono fuel (tl begin) with
      | OutOfFuel => OutOfFuel
      | Failed => Failed
      | Parsed (m, end_) =>
          let monos := monos ++ [m] in
          let end_ := tl end_ in
          if is_nul (deref end_) || Ascii.eqb (deref end_) ","
          then Parsed (PolyAddMonos monos, end_)
          else if negb (Ascii.eqb (deref end_) "+") then Failed
          else MonoLoop fuel (tl end_) monos
      end.
Proof. reflexivity. Qed.

Lemma ParseMono_unfold fuel begin :
  ParseMono (S fuel) begin =
    if is_nul (deref begin) then Failed
    else
      match ParsePolyHelper fuel begin with
      | OutOfFuel => OutOfFuel
      | Failed => Failed
      | Parsed (p, end_) =>
          if is_nul (deref end_) then Failed
          else
            match ParseExp (tl end_) with
            | OutOfFuel => OutOfFuel
            | Failed => Failed
            | Parsed (exp, end_) => Parsed (MonoFromPoly p exp, end_)
            end
      end.
Proof. reflexivity. Qed.

Lemma in_range_sum ms :
  in_range (PolyAddMonos ms) = forallb mono_in_range ms.
Proof. reflexivity. Qed.

Lemma parser_sound fuel :
  (forall s p e, ParsePolyHelper fuel s = Parsed (p, e) ->
     exists pre, s = pre ++ e /\ Polynomial pre p /\ in_range p = true /\
                 is_stop (deref e) = true) /\
  (forall s acc p e, MonoLoop fuel s acc = Parsed (p, e) ->
     exists pre ms, s = pre ++ e /\ TermSum pre ms /\
                    p = PolyAddMonos (acc ++ ms) /\
                    forallb mono_in_range ms = true /\
                    is_stop (deref e) = true) /\
  (forall s m e, ParseMono fuel s = Parsed (m, e) ->
     exists pre, "("%char :: s = pre ++ tl e /\ Term pre m /\
                 mono_in_range m = true /\ deref e = ")"%char).
Proof.
  induction fuel as [|fuel (IH1 & IH2 & IH3)].
  { repeat split; intros; discriminate. }
  split; [|split].
  - intros s p e H. rewrite PPH_unfold in H.
    destruct (is_nul (deref s)) eqn:Hn; [discriminate|].
    destruct (IsDigitOrMinus (deref s)) eqn:Hg.
    + destruct (strtoll 0 s) as [[x e'] errno] eqn:Hs.
      destruct (strtoll_inv _ _ _ _ Hg Hs) as [[-> Hm]|(neg & ds & Hd & Heq & He & Hv)].
      * rewrite Hm in H. simpl in H. rewrite orb_true_r in H. discriminate.
      * destruct Hv as [(-> & -> & Hr)|[-> Hr]]; [|discriminate].
        simpl orb in H.
        destruct (negb (Ascii.eqb (deref e') ",") && negb (is_nul (deref e'))) eqn:Hst;
          [discriminate|].
        injection H as <- <-.
        exists (sign neg ++ ds). split; [now rewrite <- app_assoc|].
        split; [now constructor|]. split; [exact Hr|].
        unfold is_stop. destruct (Ascii.eqb (deref e') ","), (is_nul (deref e'));
          simpl in *; congruence.
    + destruct (IH2 _ _ _ _ H) as (pre & ms & -> & Hts & -> & Hr & Hst).
      exists pre. repeat split; auto. now constructor.
  - intros s acc p e H. rewrite MonoLoop_unfold in H.
    destruct (Ascii.eqb (deref s) "(") eqn:Hp; simpl negb in H; [|discriminate].
    apply Ascii.eqb_eq in Hp.
    destruct (ParseMono fuel (tl s)) as [| |[m e1]] eqn:Hm; try discriminate.
    destruct (IH3 _ _ _ Hm) as (pre & Heq & Ht & Hr & Hc).
    rewrite <- (deref_cons s _ Hp) in Heq by discriminate.
    cbv zeta in H.
    destruct (is_nul (deref (tl e1)) || Ascii.eqb (deref (tl e1)) ",") eqn:Hst.
    + injection H as <- <-. exists pre, [m].
      split; [exact Heq|]. split; [now constructor|]. split; [reflexivity|].
      split; [simpl; now rewrite Hr|exact Hst].
    + destruct (Ascii.eqb (deref (tl e1)) "+") eqn:Hplus; simpl negb in H; [|discriminate].
      apply Ascii.eqb_eq in Hplus.
      destruct (IH2 _ _ _ _ H) as (pre' & ms & Heq' & Hts & -> & Hr' & Hst').
      exists (pre ++ "+"%char :: pre'), (m :: ms).
      split.
      { rewrite Heq, (deref_cons (tl e1) _ Hplus) by discriminate.
        rewrite Heq'. now rewrite <- app_assoc. }
      split; [now constructor|]. split; [now rewrite <- app_assoc|].
      split; [simpl; now rewrite Hr, Hr'|exact Hst'].
  - intros s m e H. rewrite ParseMono_unfold in H.
    destruct (is_nul (deref s)) eqn:Hn; [discriminate|].
    destruct (ParsePolyHelper fuel s) as [| |[p e1]] eqn:Hp; try discriminate.
    destruct (IH1 _ _ _ Hp) as (pre & Heq & Hpol & Hr & Hst).
    destruct (is_nul (deref e1)) eqn:Hn1; [discriminate|].
    assert (Hc : deref e1 = ","%char).
    { unfold is_stop in Hst. rewrite Hn1 in Hst. simpl in Hst. now apply Ascii.eqb_eq. }
    destruct (ParseExp (tl e1)) as [| |[x e2]] eqn:Hx; try discriminate.
    injection H as <- <-.
    destruct (ParseExp_inv _ _ _ Hx) as (ds & Hds & Heq2 & -> & Hc2 & Hr2).
    exists ("("%char :: pre ++ ","%char :: ds ++ [")"%char]).
    split.
    { rewrite Heq, (deref_cons e1 _ Hc), Heq2 by discriminate.
      rewrite (deref_cons e2 _ Hc2) at 1 by discriminate.
      simpl. f_equal. rewrite <- !app_assoc. simpl. f_equal. f_equal.
      rewrite <- app_assoc. reflexivity. }
    split; [now constructor|]. split; [simpl; now rewrite Hr, Hr2|exact Hc2].
Qed.

(** *** The parser accepts what the grammar derives, within the ranges *)

Lemma Term_head s m : Term s m -> exists t, s = "("%char :: t.
Proof. intros H. destruct H. eauto. Qed.

Lemma TermSum_head s ms : TermSum s ms -> exists t, s = "("%char :: t.
Proof.
  intros H. destruct H as [s m Ht|s m s' ms Ht _];
    destruct (Term_head _ _ Ht) as (t & ->); simpl; eauto.
Qed.

Lemma Polynomial_head s p :
  Polynomial s p ->
  exists c t, s = c :: t /\ (IsDigitOrMinus c = true \/ c = "("%char).
Proof.
  intros H. destruct H as [neg ds [Hne Hall]|s ms Hts].
  - destruct neg; simpl.
    + exists "-"%char, ds. split; [reflexivity|]. now left.
    + destruct ds as [|d ds]; [congruence|]. inversion Hall; subst.
      exists d, ds. split; [reflexivity|]. left. unfold IsDigitOrMinus.
      now replace (isdigit d) with true.
  - destruct (TermSum_head _ _ Hts) as (t & ->). eauto.
Qed.

Lemma is_stop_not_digit c : is_stop c = true -> isdigit c = false.
Proof. unfold is_stop. intros H. char_lia. Qed.

Lemma parser_complete :
  (forall s p, Polynomial s p -> forall rest fuel,
     is_stop (deref rest) = true -> (3 * length s + 3 <= fuel)%nat ->
     ParsePolyHelper fuel (s ++ rest) =
       if in_range p then Parsed (p, rest) else Failed) /\
  (forall s ms, TermSum s ms -> forall rest fuel acc,
     is_stop (deref rest) = true -> (3 * length s + 2 <= fuel)%nat ->
     MonoLoop fuel (s ++ rest) acc =
       if forallb mono_in_range ms
       then Parsed (PolyAddMonos (acc ++ ms), rest) else Failed) /\
  (forall s m, Term s m -> forall rest fuel,
     (3 * length s + 1 <= fuel)%nat ->
     ParseMono fuel (tl (s ++ rest)) =
       if mono_in_range m then Parsed (m, ")"%char :: rest) else Failed).
Proof.
  apply grammar_mutind.
  - (* a coefficient *)
    intros neg ds Hd rest fuel Hst Hf.
    destruct fuel as [|fuel]; [lia|]. rewrite PPH_unfold.
    destruct (Polynomial_head _ _ (Coefficient_lit neg ds Hd)) as (c & t & Heq & [Hc|Hc]).
    2:{ exfalso. destruct Hd as [Hne Hall]. destruct neg; simpl in Heq.
        - inversion Heq; subst; discriminate.
        - destruct ds; [congruence|]. inversion Heq; subst.
          inversion Hall; subst. discriminate. }
    assert (Hh : deref ((sign neg ++ ds) ++ rest) = c) by now rewrite Heq.
    rewrite Hh.
    replace (is_nul c) with false by (symmetry; char_lia). rewrite Hc.
    rewrite <- app_assoc, strtoll_literal by (auto using is_stop_not_digit).
    cbv zeta. simpl in_range.
    destruct (coeff_in_range (signed neg (dec_value ds))); cbv beta iota.
    + replace (0 =? ERANGE) with false by reflexivity. simpl orb.
      unfold is_stop in Hst.
      replace (negb (Ascii.eqb (deref rest) ",") && negb (is_nul (deref rest)))
        with false; [reflexivity|].
      destruct (Ascii.eqb (deref rest) ","), (is_nul (deref rest));
        simpl in *; congruence.
    + rewrite Z.eqb_refl. reflexivity.
  - (* a sum of terms *)
    intros s ms Hts IH rest fuel Hst Hf.
    destruct fuel as [|fuel]; [lia|]. rewrite PPH_unfold.
    destruct (TermSum_head _ _ Hts) as (t & Heq).
    assert (Hh : deref (s ++ rest) = "("%char) by now rewrite Heq.
    rewrite Hh. change (is_nul "(") with false.
    change (IsDigitOrMinus "(") with false. cbv iota.
    rewrite IH by (auto; lia). reflexivity.
  - (* one term *)
    intros s m Ht IH rest fuel acc Hst Hf.
    destruct fuel as [|fuel]; [lia|]. rewrite MonoLoop_unfold.
    destruct (Term_head _ _ Ht) as (t & Heq).
    assert (Hh : deref (s ++ rest) = "("%char) by now rewrite Heq.
    rewrite Hh. change (Ascii.eqb "(" "(") with true.
    simpl negb. cbv iota. rewrite IH by lia.
    simpl forallb. rewrite andb_true_r.
    destruct (mono_in_range m); [|reflexivity].
    cbv zeta. simpl tl. unfold is_stop in Hst. rewrite Hst. reflexivity.
  - (* a term, '+', more terms *)
    intros s m s' ms Ht IH Hts IHs rest fuel acc Hst Hf.
    destruct fuel as [|fuel]; [lia|]. rewrite MonoLoop_unfold.
    destruct (Term_head _ _ Ht) as (t & Heq).
    rewrite <- app_assoc.
    assert (Hh : deref (s ++ ("+"%char :: s') ++ rest) = "("%char) by now rewrite Heq.
    rewrite Hh.
    change (Ascii.eqb "(" "(") with true. simpl negb. cbv iota.
    rewrite length_app in Hf. simpl in Hf.
    rewrite IH by lia. simpl forallb.
    destruct (mono_in_range m); [|reflexivity]. simpl andb.
    cbv zeta. simpl tl. simpl deref.
    change (is_nul "+" || Ascii.eqb "+" ",") with false.
    change (negb (Ascii.eqb "+" "+")) with false. cbv iota.
    rewrite IHs by (auto; lia).
    destruct (forallb mono_in_range ms); [|reflexivity].
    now rewrite <- app_assoc.
  - (* a term *)
    intros s p ds Hp IH Hd rest fuel Hf.
    destruct fuel as [|fuel]; [lia|]. rewrite ParseMono_unfold.
    simpl length in Hf. rewrite length_app in Hf. simpl in Hf.
    simpl tl.
    replace ((s ++ ","%char :: ds ++ [")"%char]) ++ rest)
      with (s ++ ","%char :: ds ++ ")"%char :: rest)
      by (rewrite <- !app_assoc; simpl; now rewrite <- app_assoc).
    destruct (Polynomial_head _ _ Hp) as (c & t & Heq & Hc).
    assert (Hh : deref (s ++ ","%char :: ds ++ ")"%char :: rest) = c) by now rewrite Heq.
    rewrite Hh.
    replace (is_nul c) with false by (symmetry; destruct Hc as [Hc| ->]; [char_lia|reflexivity]).
    rewrite IH by (try reflexivity; lia).
    simpl mono_in_range.
    destruct (in_range p); [|reflexivity].
    simpl deref. change (is_nul ",") with false. cbv iota. simpl tl.
    rewrite ParseExp_literal by auto.
    simpl andb. destruct (exp_in_range (dec_value ds)); reflexivity.
Qed.

(** *** The depth bound is never reached, and a larger one changes nothing *)

Lemma ParseExp_fuel s : ParseExp s <> OutOfFuel.
Proof.
  unfold ParseExp. destruct (negb (isdigit (deref s))); [discriminate|].
  destruct (strtol 0 s) as [[x e] errno]. bool_cases; discriminate.
Qed.

Lemma length_tl (s : cstr) : (length (tl s) <= length s)%nat.
Proof. destruct s; simpl; lia. Qed.

Lemma fuel_enough fuel :
  (forall s, (3 * length s + 3 <= fuel)%nat ->
     ParsePolyHelper fuel s <> OutOfFuel) /\
  (forall s acc, (3 * length s + 2 <= fuel)%nat ->
     MonoLoop fuel s acc <> OutOfFuel) /\
  (forall s, (3 * length s + 4 <= fuel)%nat ->
     ParseMono fuel s <> OutOfFuel).
Proof.
  induction fuel as [|fuel (IH1 & IH2 & IH3)].
  { repeat split; intros; lia. }
  split; [|split].
  - intros s Hf. rewrite PPH_unfold.
    destruct (is_nul (deref s)); [discriminate|].
    destruct (IsDigitOrMinus (deref s)).
    + destruct (strtoll 0 s) as [[x e] errno]. bool_cases; discriminate.
    + apply IH2. lia.
  - intros s acc Hf. rewrite MonoLoop_unfold.
    destruct (Ascii.eqb (deref s) "(") eqn:Hp; simpl negb; [|discriminate].
    apply Ascii.eqb_eq in Hp.
    assert (Hs : s = "("%char :: tl s) by (apply deref_cons; [auto|discriminate]).
    assert (Hl : length s = S (length (tl s))) by (rewrite Hs at 1; reflexivity).
    destruct (ParseMono fuel (tl s)) as [| |[m e1]] eqn:Hm.
    + exfalso. apply (IH3 (tl s)); [lia|exact Hm].
    + discriminate.
    + destruct (proj2 (proj2 (parser_sound fuel)) _ _ _ Hm) as (pre & Heq & Ht & _ & _).
      destruct (Term_head _ _ Ht) as (t & ->).
      apply (f_equal (@length ascii)) in Heq. simpl in Heq.
      rewrite length_app in Heq.
      pose proof (length_tl (tl e1)).
      cbv zeta. bool_cases; try discriminate.
      apply IH2. lia.
  - intros s Hf. rewrite ParseMono_unfold.
    destruct (is_nul (deref s)); [discriminate|].
    destruct (ParsePolyHelper fuel s) as [| |[p e1]] eqn:Hp.
    + exfalso. apply (IH1 s); [lia|exact Hp].
    + discriminate.
    + destruct (is_nul (deref e1)); [discriminate|].
      pose proof (ParseExp_fuel (tl e1)).
      destruct (ParseExp (tl e1)) as [| |[x e2]]; congruence.
Qed.

Lemma fuel_mono fuel :
  (forall s r fuel', ParsePolyHelper fuel s = r -> r <> OutOfFuel ->
     (fuel <= fuel')%nat -> ParsePolyHelper fuel' s = r) /\
  (forall s acc r fuel', MonoLoop fuel s acc = r -> r <> OutOfFuel ->
     (fuel <= fuel')%nat -> MonoLoop fuel' s acc = r) /\
  (forall s r fuel', ParseMono fuel s = r -> r <> OutOfFuel ->
     (fuel <= fuel')%nat -> ParseMono fuel' s = r).
Proof.
  induction fuel as [|fuel (IH1 & IH2 & IH3)].
  { repeat split; intros; simpl in *; congruence. }
  split; [|split].
  - intros s r fuel' H Hr Hf. destruct fuel' as [|fuel']; [lia|].
    rewrite PPH_unfold in H |- *.
    destruct (is_nul (deref s)); [exact H|].
    destruct (IsDigitOrMinus (deref s)); [exact H|].
    apply IH2; auto. lia.
  - intros s acc r fuel' H Hr Hf. destruct fuel' as [|fuel']; [lia|].
    rewrite MonoLoop_unfold in H |- *.
    destruct (negb (Ascii.eqb (deref s) "(")); [exact H|].
    destruct (ParseMono fuel (tl s)) as [| |[m e1]] eqn:Hm.
    + congruence.
    + rewrite (IH3 _ _ fuel' Hm) by (try discriminate; lia). exact H.
    + rewrite (IH3 _ _ fuel' Hm) by (try discriminate; lia).
      cbv zeta in H |- *.
      destruct (is_nul (deref (tl e1)) || Ascii.eqb (deref (tl e1)) ","); [exact H|].
      destruct (negb (Ascii.eqb (deref (tl e1)) "+")); [exact H|].
      apply IH2; auto. lia.
  - intros s r fuel' H Hr Hf. destruct fuel' as [|fuel']; [lia|].
    rewrite ParseMono_unfold in H |- *.
    destruct (is_nul (deref s)); [exact H|].
    destruct (ParsePolyHelper fuel s) as [| |[p e1]] eqn:Hp.
    + congruence.
    + rewrite (IH1 _ _ fuel' Hp) by (try discriminate; lia). exact H.
    + rewrite (IH1 _ _ fuel' Hp) by (try discriminate; lia). exact H.
Qed.

(** *** Lines *)

Lemma legal_not_nul c : IsLegalCaracter c = true -> is_nul c = false.
Proof. intros H. char_lia. Qed.

Lemma legal_nul_free s : legal_text s -> nul_free s.
Proof. apply Forall_impl. exact legal_not_nul. Qed.

Lemma digit_legal c : isdigit c = true -> IsLegalCaracter c = true.
Proof. intros H. unfold IsLegalCaracter. now rewrite H. Qed.

Lemma nul_split a : forall a' r r',
  nul_free a -> nul_free a' -> a ++ NUL :: r = a' ++ NUL :: r' -> a = a' /\ r = r'.
Proof.
  induction a as [|x a IH]; intros [|y a'] r r' Ha Ha' H; simpl in H.
  - now inversion H.
  - inversion H; subst. inversion Ha'; subst. discriminate.
  - inversion H; subst. inversion Ha; subst. discriminate.
  - inversion H; subst. inversion Ha; inversion Ha'; subst.
    destruct (IH a' r r') as [-> ->]; auto.
Qed.

Lemma items_line b : items (line_of b) = b ++ [NUL].
Proof. reflexivity. Qed.

Lemma size_line b : size (line_of b) = Z.of_nat (length b) + 1.
Proof. reflexivity. Qed.

Lemma body_line b : body (line_of b) = b.
Proof. unfold body. simpl. apply removelast_last. Qed.

Lemma wf_line_of b :
  Z.of_nat (length b) < INT_MAX -> wf_line (line_of b).
Proof.
  intros H. split; [now rewrite body_line|]. rewrite size_line. lia.
Qed.

Lemma wf_line_inv cv :
  wf_line cv -> cv = line_of (body cv) /\ Z.of_nat (length (body cv)) < INT_MAX.
Proof.
  intros [H1 H2]. split; [exact H1|]. rewrite H1, size_line in H2. lia.
Qed.

Lemma size_minus_one b :
  Z.of_nat (length b) < INT_MAX ->
  (size (line_of b) - 1) mod SIZE_MOD = Z.of_nat (length b).
Proof.
  intros H. rewrite size_line. unfold INT_MAX, SIZE_MOD in *.
  rewrite Z.mod_small; lia.
Qed.

Lemma HasIllegalCharacters_line b :
  Z.of_nat (length b) < INT_MAX ->
  HasIllegalCharacters (line_of b) =
    existsb (fun c => negb (IsLegalCaracter c)) b.
Proof.
  intros H. unfold HasIllegalCharacters. rewrite size_minus_one by exact H.
  rewrite Nat2Z.id, items_line, firstn_app, firstn_all, Nat.sub_diag.
  simpl. now rewrite app_nil_r.
Qed.

Lemma HasIllegalCharacters_false b :
  Z.of_nat (length b) < INT_MAX ->
  HasIllegalCharacters (line_of b) = false <-> legal_text b.
Proof.
  intros H. rewrite HasIllegalCharacters_line by exact H.
  unfold legal_text. rewrite Forall_forall. split.
  - intros He c Hc. destruct (IsLegalCaracter c) eqn:E; [reflexivity|].
    assert (existsb (fun c => negb (IsLegalCaracter c)) b = true)
      by (apply existsb_exists; exists c; now rewrite E).
    congruence.
  - intros Hall. destruct (existsb _ b) eqn:E; [|reflexivity].
    apply existsb_exists in E. destruct E as (c & Hc & Hn).
    rewrite (Hall c Hc) in Hn. discriminate.
Qed.

(** *** The parentheses counter *)

Lemma paren_loop_neg s ctr : ctr < 0 -> paren_loop s ctr = ctr.
Proof.
  intros H. destruct s as [|c s]; simpl; [reflexivity|].
  replace (0 <=? ctr) with false by lia. now rewrite andb_false_r.
Qed.

Lemma paren_loop_cons c s ctr :
  is_nul c = false -> 0 <= ctr ->
  paren_loop (c :: s) ctr = paren_loop s (paren_step ctr c).
Proof.
  intros Hc H. simpl. rewrite Hc. replace (0 <=? ctr) with true by lia.
  reflexivity.
Qed.

Lemma paren_loop_balanced b : forall ctr,
  nul_free b -> 0 <= ctr ->
  paren_loop (b ++ [NUL]) ctr = 0 <->
  (fold_left paren_step b ctr = 0 /\
   forall k, 0 <= fold_left paren_step (firstn k b) ctr).
Proof.
  induction b as [|c b IH]; intros ctr Hb Hctr.
  - simpl. split.
    + intros ->. split; [reflexivity|]. intros k. destruct k; simpl; lia.
    + now intros [-> _].
  - inversion Hb as [|? ? Hc Hb']; subst.
    change ((c :: b) ++ [NUL]) with (c :: b ++ [NUL]).
    rewrite paren_loop_cons by auto.
    destruct (Z_lt_le_dec (paren_step ctr c) 0) as [Hneg|Hpos].
    + rewrite paren_loop_neg by exact Hneg. split; [lia|].
      intros [_ Hk]. specialize (Hk 1%nat). simpl in Hk. lia.
    + rewrite IH by auto. simpl fold_left. split.
      * intros [H0 Hk]. split; [exact H0|].
        intros [|k]; simpl; [lia|apply Hk].
      * intros [H0 Hk]. split; [exact H0|].
        intros k. apply (Hk (S k)).
Qed.

Lemma AreParenthesesValid_balanced b :
  nul_free b -> AreParenthesesValid (b ++ [NUL]) = true <-> balanced b.
Proof.
  intros Hb. unfold AreParenthesesValid, balanced.
  rewrite Z.eqb_eq. apply paren_loop_balanced; [exact Hb|lia].
Qed.

Lemma paren_loop_digits ds : forall rest ctr,
  Forall (fun c => isdigit c = true) ds -> 0 <= ctr ->
  paren_loop (ds ++ rest) ctr = paren_loop rest ctr.
Proof.
  induction ds as [|d ds IH]; intros rest ctr H Hctr; [reflexivity|].
  inversion H; subst. simpl app.
  rewrite paren_loop_cons by (auto; char_lia).
  replace (paren_step ctr d) with ctr; [now apply IH|].
  unfold paren_step.
  replace (Ascii.eqb d "(") with false by (symmetry; char_lia).
  replace (Ascii.eqb d ")") with false by (symmetry; char_lia).
  reflexivity.
Qed.

Lemma grammar_shape :
  (forall s p, Polynomial s p ->
     legal_text s /\
     forall rest ctr, 0 <= ctr -> paren_loop (s ++ rest) ctr = paren_loop rest ctr) /\
  (forall s ms, TermSum s ms ->
     legal_text s /\
     forall rest ctr, 0 <= ctr -> paren_loop (s ++ rest) ctr = paren_loop rest ctr) /\
  (forall s m, Term s m ->
     legal_text s /\
     forall rest ctr, 0 <= ctr -> paren_loop (s ++ rest) ctr = paren_loop rest ctr).
Proof.
  apply grammar_mutind.
  - intros neg ds [Hne Hall]. split.
    + apply Forall_app. split.
      * destruct neg; repeat constructor.
      * eapply Forall_impl; [|exact Hall]. exact digit_legal.
    + intros rest ctr Hctr. rewrite <- app_assoc.
      destruct neg; simpl sign; simpl app.
      * rewrite paren_loop_cons by (auto; reflexivity).
        change (paren_step ctr "-") with ctr. now apply paren_loop_digits.
      * now apply paren_loop_digits.
  - intros s ms _ IH. exact IH.
  - intros s m _ IH. exact IH.
  - intros s m s' ms _ [L1 P1] _ [L2 P2]. split.
    + apply Forall_app. split; [exact L1|]. constructor; [reflexivity|exact L2].
    + intros rest ctr Hctr. rewrite <- app_assoc, P1 by exact Hctr.
      simpl app. rewrite paren_loop_cons by (auto; reflexivity).
      change (paren_step ctr "+") with ctr. now apply P2.
  - intros s p ds _ [L1 P1] [Hne Hall]. split.
    + constructor; [reflexivity|]. apply Forall_app. split; [exact L1|].
      constructor; [reflexivity|]. apply Forall_app. split.
      * eapply Forall_impl; [|exact Hall]. exact digit_legal.
      * repeat constructor.
    + intros rest ctr Hctr. simpl app.
      rewrite paren_loop_cons by (auto; reflexivity).
      replace (paren_step ctr "(") with (ctr + 1) by reflexivity.
      rewrite <- app_assoc, P1 by lia. simpl app.
      rewrite paren_loop_cons by (try reflexivity; lia).
      replace (paren_step (ctr + 1) ",") with (ctr + 1) by reflexivity.
      rewrite <- app_assoc, paren_loop_digits by (auto; lia).
      simpl app. rewrite paren_loop_cons by (try reflexivity; lia).
      replace (paren_step (ctr + 1) ")") with (ctr + 1 - 1) by reflexivity.
      f_equal. lia.
Qed.

Lemma Polynomial_legal s p : Polynomial s p -> legal_text s.
Proof. intros H. apply (proj1 grammar_shape _ _ H). Qed.

Lemma Polynomial_parens s p :
  Polynomial s p -> AreParenthesesValid (s ++ [NUL]) = true.
Proof.
  intros H. unfold AreParenthesesValid.
  rewrite (proj2 (proj1 grammar_shape _ _ H)) by lia. reflexivity.
Qed.

(** *** [ParsePoly] and [Parse] on whole lines *)

Lemma ParsePolyHelper_returns s : ParsePolyHelper (fuel_for s) s <> OutOfFuel.
Proof. apply (proj1 (fuel_enough _)). unfold fuel_for. lia. Qed.

Lemma ParsePolyHelper_any_fuel fuel s r :
  ParsePolyHelper fuel s = r -> r <> OutOfFuel ->
  ParsePolyHelper (fuel_for s) s = r.
Proof.
  intros H Hr.
  destruct (Nat.le_ge_cases fuel (fuel_for s)) as [Hle|Hge].
  - exact (proj1 (fuel_mono fuel) _ _ _ H Hr Hle).
  - pose proof (ParsePolyHelper_returns s) as Hret.
    rewrite <- H.
    symmetry. exact (proj1 (fuel_mono (fuel_for s)) _ _ _ eq_refl Hret Hge).
Qed.

Lemma ParsePoly_cases cv n :
  ParsePoly cv n = Some (wrong_poly n) \/
  exists p, ParsePoly cv n = Some (PolyLine p, []).
Proof.
  unfold ParsePoly, wrong_poly.
  destruct (HasIllegalCharacters cv || negb (AreParenthesesValid (items cv)));
    [now left|].
  pose proof (ParsePolyHelper_returns (items cv)) as Hret.
  destruct (ParsePolyHelper (fuel_for (items cv)) (items cv)) as [| |[p e]];
    [congruence|now left|].
  destruct (negb (is_nul (deref e))); [now left|right; eauto].
Qed.

Lemma ParsePoly_accepts b n p out :
  Z.of_nat (length b) < INT_MAX ->
  ParsePoly (line_of b) n = Some (PolyLine p, out) ->
  Polynomial b p /\ in_range p = true /\ out = [].
Proof.
  intros Hb H. unfold ParsePoly in H.
  destruct (HasIllegalCharacters (line_of b)) eqn:Hill; [discriminate|].
  rewrite orb_false_l in H.
  destruct (negb (AreParenthesesValid (items (line_of b)))); [discriminate|].
  apply HasIllegalCharacters_false in Hill; [|exact Hb].
  destruct (ParsePolyHelper _ _) as [| |[q e]] eqn:Hp; try discriminate.
  destruct (is_nul (deref e)) eqn:Hn; simpl negb in H; [|discriminate].
  injection H as <- <-.
  destruct (proj1 (parser_sound _) _ _ _ Hp) as (pre & Heq & Hpol & Hr & _).
  rewrite items_line in Heq.
  assert (pre = b) as ->.
  { pose proof (legal_nul_free _ (Polynomial_legal _ _ Hpol)) as Hpre.
    pose proof (legal_nul_free _ Hill) as Hnb.
    destruct e as [|x e].
    - rewrite app_nil_r in Heq. subst pre.
      apply Forall_app in Hpre. destruct Hpre as [_ Hpre].
      inversion Hpre; subst. discriminate.
    - simpl in Hn. apply Ascii.eqb_eq in Hn. subst x.
      symmetry. now apply (nul_split b pre [] e). }
  auto.
Qed.

Lemma ParsePoly_literal b n p :
  Z.of_nat (length b) < INT_MAX -> Polynomial b p ->
  ParsePoly (line_of b) n =
    Some (if in_range p then (PolyLine p, []) else wrong_poly n).
Proof.
  intros Hb Hpol. unfold ParsePoly.
  replace (HasIllegalCharacters (line_of b)) with false
    by (symmetry; apply HasIllegalCharacters_false;
        [exact Hb|now apply Polynomial_legal with p]).
  rewrite items_line, (Polynomial_parens _ _ Hpol). simpl orb. cbv iota.
  rewrite (proj1 parser_complete _ _ Hpol)
    by (try reflexivity; unfold fuel_for; rewrite length_app; simpl; lia).
  destruct (in_range p); reflexivity.
Qed.

Lemma Polynomial_not_alpha b p :
  Polynomial b p -> isalpha (idx (items (line_of b)) 0) = false.
Proof.
  intros H. destruct (Polynomial_head _ _ H) as (c & t & -> & Hc).
  simpl. unfold idx. simpl. destruct Hc as [Hc| ->]; [char_lia|reflexivity].
Qed.

Lemma Parse_returns cv n : exists l out, Parse cv n = Some (l, out).
Proof.
  unfold Parse. destruct (isalpha _).
  - destruct (ParseCommand cv n) as [l out]. eauto.
  - destruct (ParsePoly_cases cv n) as [H|[p H]]; rewrite H;
      unfold wrong_poly; eauto.
Qed.

Lemma Parse_not_alpha cv n :
  isalpha (idx (items cv) 0) = false -> Parse cv n = ParsePoly cv n.
Proof. unfold Parse. now intros ->. Qed.

Lemma TermSum_last s ms : TermSum s ms -> exists t, s = t ++ [")"%char].
Proof.
  induction 1 as [s m Ht|s m s' ms Ht _ (t & ->)].
  - destruct Ht as [s p ds _ _].
    exists ("("%char :: s ++ ","%char :: ds).
    simpl. f_equal. rewrite <- app_assoc. reflexivity.
  - exists (s ++ "+"%char :: t). rewrite <- app_assoc. reflexivity.
Qed.

Lemma Coefficient_chars co c :
  Coefficient co -> In c co -> IsDigitOrMinus c = true.
Proof.
  intros (neg & ds & [_ Hall] & ->) Hin.
  apply in_app_or in Hin. destruct Hin as [Hin|Hin].
  - destruct neg; simpl in Hin; [|contradiction].
    destruct Hin as [<-|[]]. reflexivity.
  - rewrite Forall_forall in Hall. unfold IsDigitOrMinus.
    now rewrite (Hall _ Hin).
Qed.

Lemma Coefficient_head co :
  Coefficient co -> exists c t, co = c :: t /\ IsDigitOrMinus c = true.
Proof.
  intros H. destruct co as [|c t].
  - destruct H as (neg & ds & [Hne _] & Heq).
    destruct neg; [discriminate|]. simpl in Heq. congruence.
  - exists c, t. split; [reflexivity|].
    apply (Coefficient_chars _ _ H). now left.
Qed.

Lemma Coefficient_last co :
  Coefficient co -> exists t d, co = t ++ [d] /\ isdigit d = true.
Proof.
  intros (neg & ds & [Hne Hall] & ->).
  destruct (exists_last Hne) as (t & d & ->).
  exists (sign neg ++ t), d. split; [now rewrite app_assoc|].
  apply Forall_app in Hall. destruct Hall as [_ Hd]. now inversion Hd.
Qed.

Lemma Polynomial_cases s p :
  Polynomial s p -> Coefficient s \/ exists ms, TermSum s ms.
Proof.
  intros H. destruct H as [neg ds Hd|s ms Hts].
  - left. now exists neg, ds.
  - right. eauto.
Qed.

Lemma coefficient_plus_not_polynomial co rest p :
  Coefficient co -> ~ Polynomial (co ++ "+"%char :: rest) p.
Proof.
  intros Hco Hp. destruct (Polynomial_cases _ _ Hp) as [Hc|[ms Hts]].
  - assert (Hin : In "+"%char (co ++ "+"%char :: rest))
      by (apply in_or_app; right; now left).
    pose proof (Coefficient_chars _ _ Hc Hin). discriminate.
  - destruct (TermSum_head _ _ Hts) as (t & Heq).
    destruct (Coefficient_head _ Hco) as (c & t' & -> & Hc).
    inversion Heq; subst. discriminate.
Qed.

Lemma term_sum_plus_coefficient_not_polynomial ts ms co p :
  TermSum ts ms -> Coefficient co -> ~ Polynomial (ts ++ "+"%char :: co) p.
Proof.
  intros Hts Hco Hp. destruct (Polynomial_cases _ _ Hp) as [Hc|[ms' Hts']].
  - destruct (TermSum_head _ _ Hts) as (t & ->).
    assert (Hin : In "("%char (("("%char :: t) ++ "+"%char :: co)) by now left.
    pose proof (Coefficient_chars _ _ Hc Hin). discriminate.
  - destruct (TermSum_last _ _ Hts') as (t & Heq).
    destruct (Coefficient_last _ Hco) as (t' & d & -> & Hd).
    change (ts ++ "+"%char :: t' ++ [d]) with (ts ++ ("+"%char :: t') ++ [d]) in Heq.
    rewrite app_assoc in Heq. apply app_inj_tail in Heq.
    destruct Heq as [_ ->]. discriminate.
Qed.

Lemma rejected_unless_polynomial b n :
  Z.of_nat (length b) < INT_MAX ->
  (forall p, ~ Polynomial b p) ->
  ParsePoly (line_of b) n = Some (wrong_poly n).
Proof.
  intros Hb Hno. destruct (ParsePoly_cases (line_of b) n) as [H|[p H]]; [exact H|].
  destruct (ParsePoly_accepts _ _ _ _ Hb H) as (Hp & _). now destruct (Hno p).
Qed.

(** *** Keywords against lines *)

Lemma strlen_nul_free kw : forall r,
  nul_free kw -> strlen (kw ++ NUL :: r) = Z.of_nat (length kw).
Proof.
  induction kw as [|k kw IH]; intros r H; [reflexivity|].
  inversion H; subst. simpl app. cbn [strlen]. replace (is_nul k) with false by auto.
  rewrite IH by auto. simpl length. lia.
Qed.

Lemma strlen_lit kw :
  nul_free (text kw) -> strlen (lit kw) = Z.of_nat (length (text kw)).
Proof. intros H. now apply strlen_nul_free. Qed.

Lemma code_diff c d : c <> d -> code c - code d <> 0.
Proof. intros N E. apply N, code_inj. lia. Qed.

Lemma strcmp_same_length kw : forall b,
  nul_free kw -> length b = length kw ->
  strcmp (b ++ [NUL]) (kw ++ [NUL]) = 0 <-> b = kw.
Proof.
  induction kw as [|k kw IH]; intros b Hk Hl.
  - destruct b; [|discriminate]. simpl. split; reflexivity.
  - destruct b as [|x b]; [discriminate|]. inversion Hk as [|? ? Hk1 Hk2]; subst.
    simpl app. cbn [strcmp deref hd tl].
    destruct (Ascii.eqb_spec x k) as [->|N].
    + rewrite Hk1. rewrite IH by (auto; simpl in Hl; lia).
      split; [now intros ->|]. now inversion 1.
    + split; [intros E; now apply code_diff in E|]. now inversion 1.
Qed.

Lemma IsEqual_iff b kw :
  nul_free (text kw) -> Z.of_nat (length b) < INT_MAX ->
  IsEqual (line_of b) (lit kw) = true <-> b = text kw.
Proof.
  intros Hk Hb. unfold IsEqual. rewrite strlen_lit, size_line, items_line by exact Hk.
  rewrite andb_true_iff, !Z.eqb_eq. split.
  - intros [Hl Hc]. apply (strcmp_same_length (text kw) b Hk); [lia|exact Hc].
  - intros ->. split; [reflexivity|]. now apply strcmp_same_length.
Qed.

Lemma strncmp_prefix kw : forall s,
  nul_free kw ->
  strncmp (kw ++ [NUL]) s (length kw) = 0 <-> exists r, s = kw ++ r.
Proof.
  induction kw as [|k kw IH]; intros s Hk.
  - simpl. split; [eauto|reflexivity].
  - inversion Hk as [|? ? Hk1 Hk2]; subst.
    simpl app. simpl length. cbn [strncmp deref hd tl].
    destruct (Ascii.eqb_spec k (deref s)) as [E|N].
    + rewrite Hk1. rewrite IH by auto.
      assert (Hs : s = k :: tl s).
      { apply deref_cons; [auto|]. intros ->. discriminate. }
      split.
      * intros (r & Hr). exists r. rewrite Hs, Hr. reflexivity.
      * intros (r & Hr). exists r. rewrite Hr. reflexivity.
    + split; [intros E; now apply code_diff in E|].
      intros (r & ->). now destruct N.
Qed.

Lemma prefix_of_line kw : forall b r,
  nul_free kw -> b ++ [NUL] = kw ++ r -> exists r', b = kw ++ r' /\ r = r' ++ [NUL].
Proof.
  induction kw as [|k kw IH]; intros b r Hk H.
  - exists b. now split.
  - inversion Hk as [|? ? Hk1 Hk2]; subst. destruct b as [|x b]; simpl in H.
    + inversion H; subst. discriminate.
    + inversion H; subst. destruct (IH _ _ Hk2 H2) as (r' & -> & ->).
      exists r'. now split.
Qed.

Lemma IsPrefix_line b kw :
  nul_free (text kw) ->
  IsPrefix (lit kw) (items (line_of b)) = true <-> exists r, b = text kw ++ r.
Proof.
  intros Hk. unfold IsPrefix. rewrite strlen_lit, Nat2Z.id, Z.eqb_eq by exact Hk.
  unfold lit. fold (text kw). rewrite strncmp_prefix, items_line by exact Hk.
  split.
  - intros (r & Hr). destruct (prefix_of_line _ _ _ Hk Hr) as (r' & -> & _). eauto.
  - intros (r & ->). exists (r ++ [NUL]). now rewrite app_assoc.
Qed.

Lemma idx_after kw r :
  idx ((kw ++ r) ++ [NUL]) (Z.of_nat (length kw)) = deref (r ++ [NUL]).
Proof.
  unfold idx. rewrite Nat2Z.id, <- app_assoc, app_nth2, Nat.sub_diag by lia.
  destruct (r ++ [NUL]); reflexivity.
Qed.

Lemma IsCorrectCommand_iff b kw :
  nul_free (text kw) -> Z.of_nat (length b) < INT_MAX ->
  IsCorrectCommand (line_of b) (lit kw) = true <->
  exists r, b = text kw ++ r /\ (r = [] \/ isspace (deref r) = true).
Proof.
  intros Hk Hb. unfold IsCorrectCommand. cbv zeta.
  rewrite andb_true_iff, IsPrefix_line by exact Hk.
  rewrite strlen_lit, size_minus_one by auto. rewrite size_line, items_line.
  split.
  - intros [(r & ->) H]. exists r. split; [reflexivity|].
    rewrite idx_after in H. rewrite length_app in H.
    destruct r as [|c r]; [now left|right].
    cbn [app deref hd] in H |- *. apply orb_true_iff in H. destruct H as [H|H].
    + now apply andb_true_iff in H.
    + apply andb_true_iff in H. destruct H as [H _]. cbn [length] in H. exfalso. clear -H. apply Z.eqb_eq in H. lia.
  - intros (r & -> & H). split; [eauto|].
    rewrite idx_after, length_app.
    destruct H as [->|H].
    + cbn [app deref hd length]. apply orb_true_iff. right. apply andb_true_iff.
      split; [apply Z.eqb_eq; lia|reflexivity].
    + destruct r as [|c r]; [discriminate|]. cbn [app deref hd] in H |- *.
      rewrite H. apply orb_true_iff. left. apply andb_true_iff.
      split; [apply Z.ltb_lt; lia|reflexivity].
Qed.

(** *** Argument conversions *)

Lemma ArgumentError_iff b pre e errno :
  Z.of_nat (length b) < INT_MAX -> b ++ [NUL] = pre ++ e ->
  ArgumentError errno (line_of b) e = false <-> errno <> ERANGE /\ e = [NUL].
Proof.
  intros Hb Heq. unfold ArgumentError, ptr_diff.
  rewrite size_minus_one, items_line by exact Hb.
  assert (Hl : Z.of_nat (length (b ++ [NUL])) =
               Z.of_nat (length pre) + Z.of_nat (length e))
    by (rewrite Heq, length_app; lia).
  assert (Hl' : Z.of_nat (length (b ++ [NUL])) = Z.of_nat (length b) + 1)
    by (rewrite length_app; simpl; lia).
  rewrite Z.mod_small by (unfold INT_MAX, SIZE_MOD in *; lia).
  rewrite !orb_false_iff, !negb_false_iff, Z.eqb_neq, Z.eqb_eq.
  split.
  - intros [[He Hn] Hd]. split; [exact He|].
    destruct e as [|x [|y e]]; simpl in *; try lia.
    apply Ascii.eqb_eq in Hn. now subst.
  - intros [He ->]. repeat split; auto. simpl in *. lia.
Qed.

Lemma strtoull_inv s x e errno :
  isdigit (deref s) = true ->
  strtoull 0 s = (x, e, errno) ->
  exists ds, digits ds /\ s = ds ++ e /\ isdigit (deref e) = false /\
    ((errno = 0 /\ x = dec_value ds /\ x <= ULLONG_MAX) \/
     (errno = ERANGE /\ ULLONG_MAX < dec_value ds)).
Proof.
  intros Hd H. unfold strtoull in H.
  assert (Hg : IsDigitOrMinus (deref s) = true)
    by (unfold IsDigitOrMinus; now rewrite Hd).
  destruct (subject s) as [[[neg v] e']|] eqn:Hs.
  - destruct (subject_inv _ _ _ _ Hg Hs) as (ds & Hds & Heq & -> & He).
    assert (neg = false) as ->.
    { destruct neg; [|reflexivity]. rewrite Heq in Hd. simpl in Hd. discriminate. }
    exists ds. destruct (ULLONG_MAX <? dec_value ds) eqn:E;
      injection H as <- <- <-; (split; [exact Hds|]); (split; [exact Heq|]);
      (split; [exact He|]).
    + right. split; [reflexivity|lia].
    + left. repeat split; lia.
  - pose proof (subject_none_minus _ Hg Hs) as Hm. rewrite Hm in Hd. discriminate.
Qed.

Lemma strtoull_digits ds :
  digits ds ->
  strtoull 0 (ds ++ [NUL]) =
    if dec_value ds <=? ULLONG_MAX then (dec_value ds, [NUL], 0)
    else (ULLONG_MAX, [NUL], ERANGE).
Proof.
  intros Hd. unfold strtoull.
  pose proof (subject_literal false ds [NUL] Hd eq_refl) as Hs.
  simpl sign in Hs. simpl app in Hs. rewrite Hs.
  destruct (ULLONG_MAX <? dec_value ds) eqn:E.
  - replace (dec_value ds <=? ULLONG_MAX) with false by lia. reflexivity.
  - replace (dec_value ds <=? ULLONG_MAX) with true by lia. reflexivity.
Qed.

Lemma app_nul_inj (a a' : list ascii) : a ++ [NUL] = a' ++ [NUL] -> a = a'.
Proof. intros H. now apply app_inj_tail in H. Qed.

(** The branch taken once an unsigned argument is known to start with a
    digit: either the whole argument is a number in range, or the line is
    wrong. *)
Lemma unsigned_conversion b pre arg c (msg : list string) :
  Z.of_nat (length b) < INT_MAX -> b = pre ++ arg ->
  isdigit (deref arg) = true ->
  let r : Emitting Line := (let '(x, e, errno) := strtoull 0 (arg ++ [NUL]) in
            if ArgumentError errno (line_of b) e
            then (WrongLine, msg) else (CommandLineWithArg c x, [])) in
  (r = (WrongLine, msg) /\ forall v, ~ unsigned_argument arg v) \/
  (exists v, unsigned_argument arg v /\ r = (CommandLineWithArg c v, [])).
Proof.
  intros Hb -> Hd. cbv zeta.
  destruct (strtoull 0 (arg ++ [NUL])) as [[x e] errno] eqn:Hs.
  assert (Hd' : isdigit (deref (arg ++ [NUL])) = true).
  { destruct arg; [discriminate|exact Hd]. }
  destruct (strtoull_inv _ _ _ _ Hd' Hs) as (ds & Hds & Heq & He & Hv).
  assert (Hitems : (pre ++ arg) ++ [NUL] = (pre ++ ds) ++ e)
    by (rewrite <- !app_assoc; now f_equal).
  destruct (ArgumentError errno (line_of (pre ++ arg)) e) eqn:Ha.
  - left. split; [reflexivity|]. intros v (Hdv & -> & Hle).
    rewrite strtoull_digits in Hs by exact Hdv.
    replace (dec_value arg <=? ULLONG_MAX) with true in Hs by lia.
    injection Hs as <- <- <-.
    assert (ArgumentError 0 (line_of (pre ++ arg)) [NUL] = false)
      by (apply (ArgumentError_iff _ (pre ++ arg)); auto; split; [discriminate|reflexivity]).
    congruence.
  - right. apply (ArgumentError_iff _ _ _ _ Hb Hitems) in Ha.
    destruct Ha as [Hne ->]. apply app_nul_inj in Heq. subst ds.
    destruct Hv as [(-> & -> & Hle)|[E _]]; [|now destruct Hne].
    exists (dec_value arg). split; [|reflexivity].
    split; [assumption|split; [reflexivity|assumption]].
Qed.

Lemma signed_conversion b pre arg c (msg : list string) :
  Z.of_nat (length b) < INT_MAX -> b = pre ++ arg ->
  IsDigitOrMinus (deref arg) = true ->
  let r : Emitting Line := (let '(x, e, errno) := strtoll 0 (arg ++ [NUL]) in
            if ArgumentError errno (line_of b) e
            then (WrongLine, msg) else (CommandLineWithArg c x, [])) in
  (r = (WrongLine, msg) /\ forall v, ~ signed_argument arg v) \/
  (exists v, signed_argument arg v /\ r = (CommandLineWithArg c v, [])).
Proof.
  intros Hb -> Hd. cbv zeta.
  destruct (strtoll 0 (arg ++ [NUL])) as [[x e] errno] eqn:Hs.
  assert (Hd' : IsDigitOrMinus (deref (arg ++ [NUL])) = true).
  { destruct arg; [discriminate|exact Hd]. }
  destruct (ArgumentError errno (line_of (pre ++ arg)) e) eqn:Ha.
  - left. split; [reflexivity|].
    intros v (neg & ds & Hds & -> & -> & Hlo & Hhi).
    rewrite <- app_assoc, strtoll_literal in Hs by (auto; reflexivity).
    cbv zeta in Hs.
    replace (coeff_in_range (signed neg (dec_value ds))) with true in Hs
      by (unfold coeff_in_range; lia).
    injection Hs as <- <- <-.
    assert (ArgumentError 0 (line_of (pre ++ sign neg ++ ds)) [NUL] = false)
      by (apply (ArgumentError_iff _ (pre ++ sign neg ++ ds)); auto;
          split; [discriminate|reflexivity]).
    congruence.
  - right.
    destruct (strtoll_inv _ _ _ _ Hd' Hs) as [[-> Hm]|(neg & ds & Hds & Heq & He & Hv)].
    + apply (ArgumentError_iff _ pre) in Ha; [|exact Hb|now rewrite <- app_assoc].
      destruct Ha as [_ Ha]. destruct arg as [|a arg]; [discriminate Hm|].
      inversion Ha. destruct arg; discriminate.
    + assert (Hitems : (pre ++ arg) ++ [NUL] = (pre ++ sign neg ++ ds) ++ e).
      { rewrite <- !app_assoc. f_equal. exact Heq. }
      apply (ArgumentError_iff _ _ _ _ Hb Hitems) in Ha.
      destruct Ha as [Hne ->]. rewrite app_assoc in Heq. apply app_nul_inj in Heq.
      destruct Hv as [(-> & -> & Hr)|[E _]]; [|now destruct Hne].
      exists (signed neg (dec_value ds)). split; [|reflexivity].
      exists neg, ds. unfold coeff_in_range in Hr.
      split; [exact Hds|]. split; [exact Heq|]. split; [reflexivity|lia].
Qed.

(** *** The argument guards *)

Lemma idx_after_next kw r :
  idx ((kw ++ r) ++ [NUL]) (Z.of_nat (length kw) + 1) = deref (tl (r ++ [NUL])).
Proof.
  unfold idx. replace (Z.to_nat (Z.of_nat (length kw) + 1)) with (length kw + 1)%nat by lia.
  rewrite <- app_assoc, app_nth2 by lia.
  replace (length kw + 1 - length kw)%nat with 1%nat by lia.
  destruct (r ++ [NUL]) as [|x [|y t]]; reflexivity.
Qed.

Lemma has_argument_shape kw r (guard : ascii -> bool) :
  guard NUL = false ->
  (Z.of_nat (length kw) + 2 <=? size (line_of (kw ++ r))) &&
  Ascii.eqb (idx (items (line_of (kw ++ r))) (Z.of_nat (length kw))) " " &&
  guard (idx (items (line_of (kw ++ r))) (Z.of_nat (length kw) + 1)) = true <->
  exists arg, r = " "%char :: arg /\ guard (deref arg) = true.
Proof.
  intros Hg. rewrite items_line, size_line, idx_after, idx_after_next, length_app.
  rewrite !andb_true_iff, Z.leb_le. split.
  - intros [[Hs Hc] Hd]. destruct r as [|c r]; [simpl in Hs; lia|].
    cbn [app deref hd tl] in Hc, Hd. apply Ascii.eqb_eq in Hc. subst c.
    exists r. split; [reflexivity|]. destruct r; [simpl in Hd; congruence|exact Hd].
  - intros (arg & -> & Hd). cbn [app deref hd tl length].
    repeat split; [lia|].
    destruct arg; [simpl in Hd; congruence|exact Hd].
Qed.

Lemma HasDegByAnArgument_iff r :
  HasDegByAnArgument (line_of (text "DEG_BY" ++ r)) = true <->
  exists arg, r = " "%char :: arg /\ isdigit (deref arg) = true.
Proof. exact (has_argument_shape (text "DEG_BY") r isdigit eq_refl). Qed.

Lemma HasComposeAnArgument_iff r :
  HasComposeAnArgument (line_of (text "COMPOSE" ++ r)) = true <->
  exists arg, r = " "%char :: arg /\ isdigit (deref arg) = true.
Proof. exact (has_argument_shape (text "COMPOSE") r isdigit eq_refl). Qed.

Lemma HasAtAnArgument_iff r :
  HasAtAnArgument (line_of (text "AT" ++ r)) = true <->
  exists arg, r = " "%char :: arg /\ IsDigitOrMinus (deref arg) = true.
Proof. exact (has_argument_shape (text "AT") r IsDigitOrMinus eq_refl). Qed.

Lemma digits_head ds : digits ds -> isdigit (deref ds) = true.
Proof. intros [Hne Hall]. destruct ds; [congruence|]. now inversion Hall. Qed.

Lemma unsigned_argument_head arg v :
  unsigned_argument arg v -> isdigit (deref arg) = true.
Proof. intros (Hd & _). now apply digits_head. Qed.

Lemma signed_argument_head arg v :
  signed_argument arg v -> IsDigitOrMinus (deref arg) = true.
Proof.
  intros (neg & ds & Hd & -> & _). destruct neg; [reflexivity|].
  simpl. unfold IsDigitOrMinus. now rewrite digits_head.
Qed.

(** *** The classifier, case by case *)

Ltac kw_nul_free := repeat constructor.

Ltac exact_case c E Hb :=
  left; exists c; split;
  [split; [reflexivity|apply IsEqual_iff in E; [exact E|kw_nul_free|exact Hb]]
  |reflexivity].

Lemma no_argument_without_guard (guard : ascii -> bool) kw r arg :
  kw ++ r = kw ++ " "%char :: arg ->
  ~ (exists arg', r = " "%char :: arg' /\ guard (deref arg') = true) ->
  guard (deref arg) = true -> False.
Proof.
  intros Heq Hno Hg. apply app_inv_head in Heq. apply Hno. eauto.
Qed.

Lemma ParseCommand_cases b n :
  Z.of_nat (length b) < INT_MAX ->
  (exists c, exact_command c b /\ ParseCommand (line_of b) n = (CommandLine c, [])) \/
  (exists c, takes_argument c = true /\
     IsCorrectCommand (line_of b) (lit (keyword c)) = true /\
     ((exists v, command_with_argument c b v /\
                 ParseCommand (line_of b) n = (CommandLineWithArg c v, [])) \/
      ((forall v, ~ command_with_argument c b v) /\
       ParseCommand (line_of b) n = wrong_argument c n))) \/
  ((forall c, ~ exact_command c b) /\
   (forall c, takes_argument c = true ->
              IsCorrectCommand (line_of b) (lit (keyword c)) = false) /\
   ParseCommand (line_of b) n = wrong_command n).
Proof.
  intros Hb. unfold ParseCommand.
  destruct (IsEqual (line_of b) (lit "ZERO")) eqn:E1; [exact_case ZERO E1 Hb|].
  destruct (IsEqual (line_of b) (lit "IS_COEFF")) eqn:E2; [exact_case IS_COEFF E2 Hb|].
  destruct (IsEqual (line_of b) (lit "IS_ZERO")) eqn:E3; [exact_case IS_ZERO E3 Hb|].
  destruct (IsEqual (line_of b) (lit "CLONE")) eqn:E4; [exact_case CLONE E4 Hb|].
  destruct (IsEqual (line_of b) (lit "ADD")) eqn:E5; [exact_case ADD E5 Hb|].
  destruct (IsEqual (line_of b) (lit "MUL")) eqn:E6; [exact_case MUL E6 Hb|].
  destruct (IsEqual (line_of b) (lit "NEG")) eqn:E7; [exact_case NEG E7 Hb|].
  destruct (IsEqual (line_of b) (lit "SUB")) eqn:E8; [exact_case SUB E8 Hb|].
  destruct (IsEqual (line_of b) (lit "IS_EQ")) eqn:E9; [exact_case IS_EQ E9 Hb|].
  destruct (IsEqual (line_of b) (lit "DEG")) eqn:E10; [exact_case DEG E10 Hb|].
  destruct (IsEqual (line_of b) (lit "PRINT")) eqn:E11; [exact_case PRINT E11 Hb|].
  destruct (IsEqual (line_of b) (lit "POP")) eqn:E12; [exact_case POP E12 Hb|].
  right.
  destruct (IsCorrectCommand (line_of b) (lit "DEG_BY")) eqn:D1.
  { left. exists DEG_BY. split; [reflexivity|]. split; [exact D1|].
    apply IsCorrectCommand_iff in D1; [|kw_nul_free|exact Hb].
    destruct D1 as (r & -> & _).
    destruct (HasDegByAnArgument _) eqn:Hh.
    - apply HasDegByAnArgument_iff in Hh. destruct Hh as (arg & -> & Hd).
      change (skipn 7 (items (line_of (text "DEG_BY" ++ " "%char :: arg))))
        with (arg ++ [NUL]).
      destruct (unsigned_conversion (text "DEG_BY" ++ " "%char :: arg)
                  (text "DEG_BY" ++ [" "%char]) arg DEG_BY
                  (PrintErrorMsg n DEG_BY_WRONG_VARIABLE) Hb eq_refl Hd)
        as [[Hr Hno]|(v & Hv & Hr)]; cbv zeta in Hr; rewrite Hr.
      + right. split; [|reflexivity]. intros v (arg' & Heq & Hv).
        apply app_inv_head in Heq. injection Heq as <-. exact (Hno v Hv).
      + left. exists v. split; [|reflexivity]. exists arg.
        split; [reflexivity|exact Hv].
    - right. split; [|reflexivity]. intros v (arg & Heq & Hv).
      apply app_inv_head in Heq. subst r.
      assert (HH : HasDegByAnArgument (line_of (text "DEG_BY" ++ " "%char :: arg)) = true)
        by (apply HasDegByAnArgument_iff; exists arg; split;
            [reflexivity|exact (unsigned_argument_head _ _ Hv)]).
      rewrite HH in Hh. discriminate Hh. }
  destruct (IsCorrectCommand (line_of b) (lit "AT")) eqn:D2.
  { left. exists AT. split; [reflexivity|]. split; [exact D2|].
    apply IsCorrectCommand_iff in D2; [|kw_nul_free|exact Hb].
    destruct D2 as (r & -> & _).
    destruct (HasAtAnArgument _) eqn:Hh.
    - apply HasAtAnArgument_iff in Hh. destruct Hh as (arg & -> & Hd).
      change (skipn 3 (items (line_of (text "AT" ++ " "%char :: arg))))
        with (arg ++ [NUL]).
      destruct (signed_conversion (text "AT" ++ " "%char :: arg)
                  (text "AT" ++ [" "%char]) arg AT
                  (PrintErrorMsg n AT_WRONG_VALUE) Hb eq_refl Hd)
        as [[Hr Hno]|(v & Hv & Hr)]; cbv zeta in Hr; rewrite Hr.
      + right. split; [|reflexivity]. intros v (arg' & Heq & Hv).
        apply app_inv_head in Heq. injection Heq as <-. exact (Hno v Hv).
      + left. exists v. split; [|reflexivity]. exists arg.
        split; [reflexivity|exact Hv].
    - right. split; [|reflexivity]. intros v (arg & Heq & Hv).
      apply app_inv_head in Heq. subst r.
      assert (HH : HasAtAnArgument (line_of (text "AT" ++ " "%char :: arg)) = true)
        by (apply HasAtAnArgument_iff; exists arg; split;
            [reflexivity|exact (signed_argument_head _ _ Hv)]).
      rewrite HH in Hh. discriminate Hh. }
  destruct (IsCorrectCommand (line_of b) (lit "COMPOSE")) eqn:D3.
  { left. exists COMPOSE. split; [reflexivity|]. split; [exact D3|].
    apply IsCorrectCommand_iff in D3; [|kw_nul_free|exact Hb].
    destruct D3 as (r & -> & _).
    destruct (HasComposeAnArgument _) eqn:Hh.
    - apply HasComposeAnArgument_iff in Hh. destruct Hh as (arg & -> & Hd).
      change (skipn 8 (items (line_of (text "COMPOSE" ++ " "%char :: arg))))
        with (arg ++ [NUL]).
      destruct (unsigned_conversion (text "COMPOSE" ++ " "%char :: arg)
                  (text "COMPOSE" ++ [" "%char]) arg COMPOSE
                  (PrintErrorMsg n COMPOSE_WRONG_PARAMETER) Hb eq_refl Hd)
        as [[Hr Hno]|(v & Hv & Hr)]; cbv zeta in Hr; rewrite Hr.
      + right. split; [|reflexivity]. intros v (arg' & Heq & Hv).
        apply app_inv_head in Heq. injection Heq as <-. exact (Hno v Hv).
      + left. exists v. split; [|reflexivity]. exists arg.
        split; [reflexivity|exact Hv].
    - right. split; [|reflexivity]. intros v (arg & Heq & Hv).
      apply app_inv_head in Heq. subst r.
      assert (HH : HasComposeAnArgument (line_of (text "COMPOSE" ++ " "%char :: arg)) = true)
        by (apply HasComposeAnArgument_iff; exists arg; split;
            [reflexivity|exact (unsigned_argument_head _ _ Hv)]).
      rewrite HH in Hh. discriminate Hh. }
  right. split; [|split; [|reflexivity]].
  - intros c [Hc Heq].
    assert (Hself : IsEqual (line_of b) (lit (keyword c)) = true)
      by (apply IsEqual_iff; [destruct c; kw_nul_free|exact Hb|exact Heq]).
    destruct c; try discriminate Hc; simpl keyword in Hself;
      match goal with
      | E : IsEqual (line_of b) ?k = false |- _ =>
          rewrite E in Hself; discriminate Hself
      end.
  - intros c Hc. destruct c; try discriminate Hc; assumption.
Qed.

(** *** Diagnostics *)

Lemma string_app_inv (s a b : string) : (s ++ a = s ++ b)%string -> a = b.
Proof.
  induction s as [|c s IH]; simpl; intros H; [exact H|].
  injection H as H. now apply IH.
Qed.

Lemma PrintErrorMsg_inj n m m' :
  In m parser_messages -> In m' parser_messages ->
  PrintErrorMsg n m = PrintErrorMsg n m' -> m = m'.
Proof.
  intros Hm Hm' H. unfold PrintErrorMsg in H. injection H as H.
  apply (string_app_inv (zu n)) in H.
  simpl in Hm, Hm'.
  repeat (destruct Hm as [<-|Hm]; [|]); try contradiction;
    repeat (destruct Hm' as [<-|Hm']; [|]); try contradiction;
    try reflexivity; discriminate H.
Qed.

Lemma ParseCommand_shape cv n :
  (exists c, ParseCommand cv n = (CommandLine c, [])) \/
  (exists c v, ParseCommand cv n = (CommandLineWithArg c v, [])) \/
  (exists m, In m [WRONG_COMMAND; DEG_BY_WRONG_VARIABLE; AT_WRONG_VALUE;
                   COMPOSE_WRONG_PARAMETER] /\
             ParseCommand cv n = (WrongLine, PrintErrorMsg n m)).
Proof.
  unfold ParseCommand.
  repeat match goal with
         | |- context [if IsEqual cv ?k then _ else _] =>
             destruct (IsEqual cv k); [left; eauto|]
         end.
  destruct (IsCorrectCommand cv (lit "DEG_BY")).
  { destruct (HasDegByAnArgument cv).
    - destruct (strtoull 0 _) as [[x e] errno].
      destruct (ArgumentError errno cv e).
      + right; right. exists DEG_BY_WRONG_VARIABLE. split; [simpl; tauto|reflexivity].
      + right; left. eauto.
    - right; right. exists DEG_BY_WRONG_VARIABLE. split; [simpl; tauto|reflexivity]. }
  destruct (IsCorrectCommand cv (lit "AT")).
  { destruct (HasAtAnArgument cv).
    - destruct (strtoll 0 _) as [[x e] errno].
      destruct (ArgumentError errno cv e).
      + right; right. exists AT_WRONG_VALUE. split; [simpl; tauto|reflexivity].
      + right; left. eauto.
    - right; right. exists AT_WRONG_VALUE. split; [simpl; tauto|reflexivity]. }
  destruct (IsCorrectCommand cv (lit "COMPOSE")).
  { destruct (HasComposeAnArgument cv).
    - destruct (strtoull 0 _) as [[x e] errno].
      destruct (ArgumentError errno cv e).
      + right; right. exists COMPOSE_WRONG_PARAMETER. split; [simpl; tauto|reflexivity].
      + right; left. eauto.
    - right; right. exists COMPOSE_WRONG_PARAMETER. split; [simpl; tauto|reflexivity]. }
  right; right. exists WRONG_COMMAND. split; [simpl; tauto|reflexivity].
Qed.

Lemma ParseCommand_not_ParsePoly cv n : Some (ParseCommand cv n) <> ParsePoly cv n.
Proof.
  intros H.
  destruct (ParsePoly_cases cv n) as [Hp|[p Hp]]; rewrite Hp in H;
    destruct (ParseCommand_shape cv n) as [(c & Hc)|[(c & v & Hc)|(m & Hm & Hc)]];
    rewrite Hc in H; try discriminate H.
  unfold wrong_poly in H.
  apply (f_equal (fun o : option (Emitting Line) =>
                    match o with Some (_, out) => out | None => [] end)) in H.
  cbv beta iota in H.
  apply PrintErrorMsg_inj in H.
  - simpl in Hm. destruct Hm as [<-|[<-|[<-|[<-|[]]]]]; discriminate H.
  - simpl in Hm |- *. tauto.
  - simpl. tauto.
Qed.

(** *** Lines that carry an argument *)

Lemma sign_digits_inj neg ds neg' ds' :
  digits ds -> digits ds' -> sign neg ++ ds = sign neg' ++ ds' ->
  neg = neg' /\ ds = ds'.
Proof.
  intros Hd Hd' H.
  pose proof (digits_head _ Hd) as H1. pose proof (digits_head _ Hd') as H2.
  destruct neg, neg'; simpl in H.
  - injection H as ->. auto.
  - rewrite <- H in H2. discriminate.
  - rewrite H in H1. discriminate.
  - auto.
Qed.

Lemma argument_of_functional c arg v v' :
  argument_of c arg v -> argument_of c arg v' -> v = v'.
Proof.
  destruct c; simpl; try contradiction.
  - intros (_ & -> & _) (_ & -> & _). reflexivity.
  - intros (neg & ds & Hd & -> & -> & _) (neg' & ds' & Hd' & Heq & -> & _).
    destruct (sign_digits_inj _ _ _ _ Hd Hd' Heq) as [-> ->]. reflexivity.
  - intros (_ & -> & _) (_ & -> & _). reflexivity.
Qed.

Lemma command_with_argument_functional c b v v' :
  command_with_argument c b v -> command_with_argument c b v' -> v = v'.
Proof.
  intros (arg & -> & Hv) (arg' & Heq & Hv').
  apply app_inv_head in Heq. injection Heq as <-.
  exact (argument_of_functional _ _ _ _ Hv Hv').
Qed.

Lemma digits_nul_free ds : digits ds -> nul_free ds.
Proof.
  intros [_ H]. eapply Forall_impl; [|exact H]. intros c Hc. char_lia.
Qed.

Lemma argument_nul_free c arg v : argument_of c arg v -> nul_free arg.
Proof.
  destruct c; simpl; try contradiction.
  - intros (Hd & _). now apply digits_nul_free.
  - intros (neg & ds & Hd & -> & _). apply Forall_app. split.
    + destruct neg; repeat constructor.
    + now apply digits_nul_free.
  - intros (Hd & _). now apply digits_nul_free.
Qed.

Lemma keyword_nul_free c : nul_free (text (keyword c)).
Proof. destruct c; repeat constructor. Qed.

Lemma command_with_argument_nul_free c b v :
  command_with_argument c b v -> nul_free b.
Proof.
  intros (arg & -> & Hv). apply Forall_app. split; [apply keyword_nul_free|].
  constructor; [reflexivity|]. exact (argument_nul_free _ _ _ Hv).
Qed.

Lemma nul_free_not_in b : nul_free b -> ~ In NUL b.
Proof.
  intros H Hin. unfold nul_free in H. rewrite Forall_forall in H.
  specialize (H _ Hin). discriminate.
Qed.

(** Two keywords that take an argument and match the same line are the
    same keyword; a line that is exactly a keyword matches none of them. *)
Lemma correct_command_unique b c c' :
  Z.of_nat (length b) < INT_MAX ->
  takes_argument c = true -> takes_argument c' = true ->
  IsCorrectCommand (line_of b) (lit (keyword c)) = true ->
  IsCorrectCommand (line_of b) (lit (keyword c')) = true -> c = c'.
Proof.
  intros Hb Hc Hc' H H'.
  apply IsCorrectCommand_iff in H; [|apply keyword_nul_free|exact Hb].
  apply IsCorrectCommand_iff in H'; [|apply keyword_nul_free|exact Hb].
  destruct H as (r & -> & _). destruct H' as (r' & Heq & _).
  destruct c; try discriminate Hc; destruct c'; try discriminate Hc';
    try reflexivity; discriminate Heq.
Qed.

Lemma exact_command_not_correct b c c' :
  Z.of_nat (length b) < INT_MAX ->
  exact_command c b -> takes_argument c' = true ->
  IsCorrectCommand (line_of b) (lit (keyword c')) = false.
Proof.
  intros Hb [Hc ->] Hc'.
  destruct (IsCorrectCommand _ _) eqn:E; [|reflexivity].
  apply IsCorrectCommand_iff in E; [|apply keyword_nul_free|exact Hb].
  destruct E as (r & Heq & _).
  destruct c; try discriminate Hc; destruct c'; try discriminate Hc';
    discriminate Heq.
Qed.

Lemma argument_command_line b n c :
  Z.of_nat (length b) < INT_MAX -> takes_argument c = true ->
  IsCorrectCommand (line_of b) (lit (keyword c)) = true ->
  (exists v, command_with_argument c b v /\
             ParseCommand (line_of b) n = (CommandLineWithArg c v, [])) \/
  ((forall v, ~ command_with_argument c b v) /\
   ParseCommand (line_of b) n = wrong_argument c n).
Proof.
  intros Hb Hc H.
  destruct (ParseCommand_cases b n Hb)
    as [(c' & Hex & _)|[(c' & Hc' & H' & Hres)|(_ & Hno & _)]].
  - rewrite (exact_command_not_correct b c' c Hb Hex Hc) in H. discriminate.
  - rewrite (correct_command_unique b c c' Hb Hc Hc' H H'). exact Hres.
  - rewrite (Hno c Hc) in H. discriminate.
Qed.

Lemma correct_command_alpha b c :
  Z.of_nat (length b) < INT_MAX -> takes_argument c = true ->
  IsCorrectCommand (line_of b) (lit (keyword c)) = true ->
  isalpha (idx (items (line_of b)) 0) = true.
Proof.
  intros Hb Hc H.
  apply IsCorrectCommand_iff in H; [|apply keyword_nul_free|exact Hb].
  destruct H as (r & -> & _). destruct c; try discriminate Hc; reflexivity.
Qed.

Lemma ParseCommand_command_inv b n l out :
  Z.of_nat (length b) < INT_MAX ->
  ParseCommand (line_of b) n = (l, out) -> l <> WrongLine ->
  (exists c, exact_command c b /\ l = CommandLine c /\ out = []) \/
  (exists c v, takes_argument c = true /\ command_with_argument c b v /\
               l = CommandLineWithArg c v /\ out = []).
Proof.
  intros Hb H Hl.
  destruct (ParseCommand_cases b n Hb)
    as [(c & Hex & Hr)|[(c & Hc & _ & [(v & Hv & Hr)|(_ & Hr)])|(_ & _ & Hr)]];
    rewrite Hr in H.
  - injection H as <- <-. left. eauto.
  - injection H as <- <-. right. exists c, v. auto.
  - unfold wrong_argument in H. injection H as <- _. now destruct Hl.
  - unfold wrong_command in H. injection H as <- _. now destruct Hl.
Qed.

(* ================================================================= *)
(** ** The properties of the specification *)

Lemma illegal_character_found b :
  Z.of_nat (length b) < INT_MAX ->
  Exists (fun c => IsLegalCaracter c = false) b ->
  HasIllegalCharacters (line_of b) = true.
Proof.
  intros Hb H. rewrite HasIllegalCharacters_line by exact Hb.
  apply existsb_exists. apply Exists_exists in H. destruct H as (c & Hin & Hc).
  exists c. split; [exact Hin|]. now rewrite Hc.
Qed.

Lemma upfront_checks b :
  Z.of_nat (length b) < INT_MAX ->
  Exists (fun c => IsLegalCaracter c = false) b \/ ~ balanced b ->
  HasIllegalCharacters (line_of b) ||
  negb (AreParenthesesValid (items (line_of b))) = true.
Proof.
  intros Hb [H|H].
  - now rewrite illegal_character_found.
  - destruct (HasIllegalCharacters (line_of b)) eqn:Hill; [reflexivity|].
    apply HasIllegalCharacters_false in Hill; [|exact Hb].
    rewrite items_line. simpl orb.
    destruct (AreParenthesesValid (b ++ [NUL])) eqn:Hp; [|reflexivity].
    apply AreParenthesesValid_balanced in Hp; [|now apply legal_nul_free].
    now destruct H.
Qed.

(** C1.  A line routed to the expression parser that contains a character
    other than a digit, '-', '+', '(', ')', ',', or whose parentheses are not
    balanced (the counter goes negative or does not return to zero), is
    rejected by the two checks made before [ParsePolyHelper] is called, with
    the single message WRONG POLY. *)
Theorem upfront_checks_reject cv n :
  wf_line cv -> isalpha (idx (items cv) 0) = false ->
  Exists (fun c => IsLegalCaracter c = false) (body cv) \/ ~ balanced (body cv) ->
  HasIllegalCharacters cv || negb (AreParenthesesValid (items cv)) = true /\
  Parse cv n = Some (WrongLine, PrintErrorMsg n WRONG_POLY).
Proof.
  intros Hwf Ha H. destruct (wf_line_inv _ Hwf) as [Hcv Hb].
  pose proof (upfront_checks _ Hb H) as Hup. rewrite <- Hcv in Hup.
  split; [exact Hup|].
  rewrite Parse_not_alpha by exact Ha. unfold ParsePoly. now rewrite Hup.
Qed.

Lemma upfront_checks_reject_witness :
  HasIllegalCharacters (line_of (text ")(")) ||
  negb (AreParenthesesValid (items (line_of (text ")(")))) = true /\
  Parse (line_of (text ")(")) 3 = Some (WrongLine, PrintErrorMsg 3 WRONG_POLY).
Proof.
  apply (upfront_checks_reject (line_of (text ")(")) 3).
  - split; [reflexivity|]. unfold INT_MAX. simpl. lia.
  - reflexivity.
  - right. intros [_ H]. specialize (H 1%nat). vm_compute in H.
    apply H. reflexivity.
Defined.

(** C2.  A polynomial line the parser accepts is a single, optionally
    '-'-signed, integer coefficient or a '+'-separated sum of parenthesised
    (coefficient, exponent) terms; a coefficient followed by '+' and anything,
    and a sum of terms followed by '+' and a coefficient, are rejected. *)
Theorem accepted_line_is_coefficient_or_term_sum cv n :
  wf_line cv ->
  (forall p out, Parse cv n = Some (PolyLine p, out) ->
     Coefficient (body cv) \/ exists ms, TermSum (body cv) ms) /\
  (forall co rest, Coefficient co -> body cv = co ++ "+"%char :: rest ->
     Parse cv n = Some (WrongLine, PrintErrorMsg n WRONG_POLY)) /\
  (forall ts ms co, TermSum ts ms -> Coefficient co ->
     body cv = ts ++ "+"%char :: co ->
     Parse cv n = Some (WrongLine, PrintErrorMsg n WRONG_POLY)).
Proof.
  intros Hwf. destruct (wf_line_inv _ Hwf) as [Hcv Hb].
  set (b := body cv) in *. clearbody b. subst cv.
  split; [|split].
  - intros p out H. unfold Parse in H.
    destruct (isalpha _).
    + destruct (ParseCommand_shape (line_of b) n)
        as [(c & Hc)|[(c & v & Hc)|(m & _ & Hc)]]; rewrite Hc in H; discriminate.
    + destruct (ParsePoly_accepts _ _ _ _ Hb H) as (Hp & _).
      exact (Polynomial_cases _ _ Hp).
  - intros co rest Hco ->.
    destruct (Coefficient_head _ Hco) as (c & t & -> & Hc).
    rewrite Parse_not_alpha by (unfold idx; simpl; char_lia).
    apply (rejected_unless_polynomial _ n Hb).
    intros p. exact (coefficient_plus_not_polynomial _ _ _ Hco).
  - intros ts ms co Hts Hco ->.
    destruct (TermSum_head _ _ Hts) as (t & Ht).
    rewrite Parse_not_alpha by (rewrite Ht; reflexivity).
    apply (rejected_unless_polynomial _ n Hb).
    intros p. exact (term_sum_plus_coefficient_not_polynomial _ _ _ _ Hts Hco).
Qed.

Lemma accepted_line_is_coefficient_or_term_sum_witness :
  Parse (line_of (text "7+(1,2)")) 1 = Some (WrongLine, PrintErrorMsg 1 WRONG_POLY).
Proof.
  assert (Hwf : wf_line (line_of (text "7+(1,2)")))
    by (split; [reflexivity|unfold INT_MAX; simpl; lia]).
  apply (proj1 (proj2 (accepted_line_is_coefficient_or_term_sum _ 1 Hwf))
           (text "7") (text "(1,2)")).
  - exists false, (text "7"). split; [|reflexivity].
    split; [discriminate|]. repeat constructor.
  - reflexivity.
Defined.

(** C3.  An accepted polynomial literal denotes exactly the numbers written
    in it, every coefficient in the signed 64-bit range and every exponent a
    digit sequence of value at most INT_MAX followed by ')'; a literal that
    follows the grammar but has a coefficient or an exponent out of range is
    rejected with WRONG POLY. *)
Theorem out_of_range_literal_rejected cv n :
  wf_line cv ->
  (forall p out, Parse cv n = Some (PolyLine p, out) ->
     Polynomial (body cv) p /\ in_range p = true) /\
  (forall p, Polynomial (body cv) p -> in_range p = false ->
     Parse cv n = Some (WrongLine, PrintErrorMsg n WRONG_POLY)).
Proof.
  intros Hwf. destruct (wf_line_inv _ Hwf) as [Hcv Hb].
  set (b := body cv) in *. clearbody b. subst cv. split.
  - intros p out H. unfold Parse in H.
    destruct (isalpha _).
    + destruct (ParseCommand_shape (line_of b) n)
        as [(c & Hc)|[(c & v & Hc)|(m & _ & Hc)]]; rewrite Hc in H; discriminate.
    + destruct (ParsePoly_accepts _ _ _ _ Hb H) as (Hp & Hr & _). auto.
  - intros p Hp Hr.
    rewrite Parse_not_alpha by exact (Polynomial_not_alpha _ _ Hp).
    rewrite (ParsePoly_literal _ n _ Hb Hp), Hr. reflexivity.
Qed.

Lemma out_of_range_literal_rejected_witness :
  Parse (line_of (text "(1,2147483648)")) 1 =
    Some (WrongLine, PrintErrorMsg 1 WRONG_POLY).
Proof.
  assert (Hwf : wf_line (line_of (text "(1,2147483648)")))
    by (split; [reflexivity|unfold INT_MAX; simpl; lia]).
  apply (proj2 (out_of_range_literal_rejected _ 1 Hwf)
           (PolyAddMonos [MonoFromPoly (PolyFromCoeff 1) 2147483648])).
  - apply TermSum_lit, TermSum_one.
    apply (Term_lit (text "1") (PolyFromCoeff 1) (text "2147483648")).
    + apply (Coefficient_lit false (text "1")).
      split; [discriminate|]. repeat constructor.
    + split; [discriminate|]. repeat constructor.
  - reflexivity.
Defined.

(** C4.  DEG_BY and COMPOSE take a non-negative integer (one that fits
    [size_t]) and AT a signed integer in the coefficient's range: on a line
    whose keyword matches one of the three, the command is returned exactly
    when the keyword is followed by one space and such an argument up to the
    end of the line; when the argument is missing, malformed, out of range or
    followed by other characters, the classifier reports the message of that
    command and returns the error.  The line [DEG_BY x], numbered 1, gives
    [ERROR 1 DEG BY WRONG VARIABLE]. *)
Theorem argument_errors_are_command_specific cv n c :
  wf_line cv -> takes_argument c = true ->
  IsCorrectCommand cv (lit (keyword c)) = true ->
  (forall v, Parse cv n = Some (CommandLineWithArg c v, []) <->
             command_with_argument c (body cv) v) /\
  ((forall v, ~ command_with_argument c (body cv) v) ->
   Parse cv n = Some (WrongLine, PrintErrorMsg n (argument_message c))) /\
  Parse (line_of (text "DEG_BY x")) 1 =
    Some (WrongLine, [("ERROR 1 DEG BY WRONG VARIABLE" ++ newline)%string]).
Proof.
  intros Hwf Hc H. destruct (wf_line_inv _ Hwf) as [Hcv Hb].
  set (b := body cv) in *. clearbody b. subst cv.
  assert (HP : Parse (line_of b) n = Some (ParseCommand (line_of b) n)).
  { unfold Parse. now rewrite (correct_command_alpha b c Hb Hc H). }
  rewrite HP.
  destruct (argument_command_line b n c Hb Hc H) as [(v & Hv & Hr)|(Hno & Hr)];
    rewrite Hr.
  - split; [|split; [|reflexivity]].
    + intros v'. split.
      * intros E. injection E as <-. exact Hv.
      * intros Hv'. now rewrite (command_with_argument_functional _ _ _ _ Hv Hv').
    + intros Hno. now destruct (Hno v).
  - split; [|split; [|reflexivity]].
    + intros v. split; [discriminate|]. intros Hv. now destruct (Hno v).
    + reflexivity.
Qed.

Lemma argument_errors_are_command_specific_witness :
  Parse (line_of (text "COMPOSE 18446744073709551616")) 4 =
    Some (WrongLine, PrintErrorMsg 4 COMPOSE_WRONG_PARAMETER).
Proof.
  assert (Hwf : wf_line (line_of (text "COMPOSE 18446744073709551616")))
    by (split; [reflexivity|unfold INT_MAX; simpl; lia]).
  apply (proj1 (proj2 (argument_errors_are_command_specific _ 4 COMPOSE Hwf
                         eq_refl eq_refl))).
  intros v (arg & Heq & (_ & -> & Hle)).
  rewrite body_line in Heq.
  change (text "COMPOSE 18446744073709551616")
    with (text (keyword COMPOSE) ++ " "%char :: text "18446744073709551616") in Heq.
  apply app_inv_head in Heq. injection Heq as <-.
  vm_compute in Hle. apply Hle. reflexivity.
Defined.

(** C5, as the code has it.  [IsCorrectCommand] matches a keyword exactly
    when the keyword starts the line and is followed at once by the end of
    the line or by a white-space character, whatever comes after that
    character.  A line so matched is treated as that command: it gives the
    command when the keyword is followed by one space and an argument that
    extends to the end of the line, and the argument message of that command
    in every other case. *)
Theorem correct_command_match cv n c :
  wf_line cv -> takes_argument c = true ->
  (IsCorrectCommand cv (lit (keyword c)) = true <->
   exists r, body cv = text (keyword c) ++ r /\
             (r = [] \/ isspace (deref r) = true)) /\
  (IsCorrectCommand cv (lit (keyword c)) = true ->
   (exists v, command_with_argument c (body cv) v /\
              ParseCommand cv n = (CommandLineWithArg c v, [])) \/
   ParseCommand cv n = (WrongLine, PrintErrorMsg n (argument_message c))) /\
  (forall v out, ParseCommand cv n = (CommandLineWithArg c v, out) ->
     command_with_argument c (body cv) v).
Proof.
  intros Hwf Hc. destruct (wf_line_inv _ Hwf) as [Hcv Hb].
  set (b := body cv) in *. clearbody b. subst cv.
  split; [|split].
  - apply IsCorrectCommand_iff; [apply keyword_nul_free|exact Hb].
  - intros H.
    destruct (argument_command_line b n c Hb Hc H) as [Hv|(_ & Hr)];
      [now left|now right].
  - intros v out H.
    assert (Hl : CommandLineWithArg c v <> WrongLine) by discriminate.
    destruct (ParseCommand_command_inv b n _ _ Hb H Hl)
      as [(c' & _ & E & _)|(c' & v' & _ & Hv & E & _)]; [discriminate|].
    injection E as -> ->. exact Hv.
Qed.

Lemma correct_command_match_witness :
  IsCorrectCommand (line_of (text "AT -3")) (lit (keyword AT)) = true <->
  exists r, body (line_of (text "AT -3")) = text (keyword AT) ++ r /\
            (r = [] \/ isspace (deref r) = true).
Proof.
  assert (Hwf : wf_line (line_of (text "AT -3")))
    by (split; [reflexivity|unfold INT_MAX; simpl; lia]).
  exact (proj1 (correct_command_match _ 1 AT Hwf eq_refl)).
Defined.

(** C5, as stated, fails: the lines [DEG_BY ] (a space and no argument) and
    [DEG_BY  5] (two spaces) are matched as the correct command DEG_BY. *)
Lemma correct_command_needs_no_argument :
  ~ (forall cv kw, wf_line cv -> isalpha (idx (items cv) 0) = true ->
       IsCorrectCommand cv (lit kw) = true ->
       followed_by_end_or_argument (text kw) (body cv)).
Proof.
  intros H.
  assert (Hwf : wf_line (line_of (text "DEG_BY ")))
    by (split; [reflexivity|unfold INT_MAX; simpl; lia]).
  destruct (H (line_of (text "DEG_BY ")) "DEG_BY" Hwf eq_refl eq_refl)
    as [E|(c & arg & E & _ & Hne & _)].
  - discriminate E.
  - rewrite body_line in E.
    change (text "DEG_BY ") with (text "DEG_BY" ++ [" "%char]) in E.
    apply app_inv_head in E. injection E as _ E. now destruct Hne.
Qed.

(** C6.  [Parse] hands the line to the command classifier exactly when its
    first character is alphabetic, and to the expression parser otherwise;
    the two never give the same answer, so the route shows in the result. *)
Theorem Parse_routes_by_first_character cv n :
  (Parse cv n = Some (ParseCommand cv n) <-> isalpha (idx (items cv) 0) = true) /\
  (Parse cv n = ParsePoly cv n <-> isalpha (idx (items cv) 0) = false).
Proof.
  pose proof (ParseCommand_not_ParsePoly cv n) as Hne.
  unfold Parse. destruct (isalpha (idx (items cv) 0)); split; split;
    try reflexivity; try discriminate; intros H.
  - now destruct Hne.
  - now destruct Hne.
Qed.

(** C7.  When [ParsePolyHelper] parses a polynomial at the start of a line
    routed to the expression parser and stops before the end of the line,
    [Parse] reports WRONG POLY and returns the error, not the polynomial. *)
Theorem trailing_characters_rejected cv n fuel p e :
  isalpha (idx (items cv) 0) = false ->
  ParsePolyHelper fuel (items cv) = Parsed (p, e) ->
  is_nul (deref e) = false ->
  Parse cv n = Some (WrongLine, PrintErrorMsg n WRONG_POLY).
Proof.
  intros Ha Hp He. rewrite Parse_not_alpha by exact Ha. unfold ParsePoly.
  destruct (HasIllegalCharacters cv || negb (AreParenthesesValid (items cv)));
    [reflexivity|].
  rewrite (ParsePolyHelper_any_fuel _ _ _ Hp) by discriminate.
  now rewrite He.
Qed.

Lemma trailing_characters_rejected_witness :
  Parse (line_of (text "(1,2),5")) 2 = Some (WrongLine, PrintErrorMsg 2 WRONG_POLY).
Proof.
  apply (trailing_characters_rejected (line_of (text "(1,2),5")) 2 4
           (PolyAddMonos [MonoFromPoly (PolyFromCoeff 1) 2])
           (text ",5" ++ [NUL])); reflexivity.
Defined.

(** C8.  [Parse] always returns.  When it returns the error it has written
    exactly one line [ERROR <lineNr> <MESSAGE>] to the error stream, with
    the message one of WRONG COMMAND, WRONG POLY, DEG BY WRONG VARIABLE,
    AT WRONG VALUE, COMPOSE WRONG PARAMETER; when it returns a command or a
    polynomial it has written nothing. *)
Theorem one_diagnostic_per_error cv n :
  exists l out, Parse cv n = Some (l, out) /\
    ((l = WrongLine /\
      exists m, In m parser_messages /\
                out = [("ERROR " ++ zu n ++ " " ++ m ++ newline)%string]) \/
     (l <> WrongLine /\ out = [])).
Proof.
  unfold Parse. destruct (isalpha _).
  - destruct (ParseCommand_shape cv n)
      as [(c & Hc)|[(c & v & Hc)|(m & Hm & Hc)]]; rewrite Hc.
    + exists (CommandLine c), []. split; [reflexivity|]. right. now split.
    + exists (CommandLineWithArg c v), []. split; [reflexivity|]. right. now split.
    + exists WrongLine, (PrintErrorMsg n m). split; [reflexivity|]. left.
      split; [reflexivity|]. exists m. split; [|reflexivity].
      simpl in Hm |- *. tauto.
  - destruct (ParsePoly_cases cv n) as [H|[p H]]; rewrite H.
    + exists WrongLine, (PrintErrorMsg n WRONG_POLY). split; [reflexivity|].
      left. split; [reflexivity|]. exists WRONG_POLY. split; [|reflexivity].
      simpl. tauto.
    + exists (PolyLine p), []. split; [reflexivity|]. right. now split.
Qed.

(** C9.  The empty line goes to the expression parser, passes both checks
    made up front, fails in [ParsePolyHelper] at its first test, and is
    answered with WRONG POLY and the error. *)
Theorem empty_line_is_wrong_poly n fuel :
  isalpha (idx (items (line_of [])) 0) = false /\
  HasIllegalCharacters (line_of []) = false /\
  AreParenthesesValid (items (line_of [])) = true /\
  ParsePolyHelper (S fuel) (items (line_of [])) = Failed /\
  Parse (line_of []) n = Some (WrongLine, PrintErrorMsg n WRONG_POLY).
Proof. repeat split. Qed.

Lemma line_is_wrong l : l = WrongLine \/ l <> WrongLine.
Proof. destruct l; [now left| | |]; right; discriminate. Qed.

Lemma embedded_nul_never_equal b kw :
  Z.of_nat (length b) < INT_MAX -> nul_free (text kw) -> In NUL b ->
  IsEqual (line_of b) (lit kw) = false.
Proof.
  intros Hb Hk Hin. destruct (IsEqual _ _) eqn:E; [|reflexivity].
  apply IsEqual_iff in E; auto. subst b. now destruct (nul_free_not_in _ Hk).
Qed.

(** C10.  A line that holds a NUL byte before its recorded end equals no
    keyword, gives no command with an argument, and so is never answered
    with a command: [ParseCommand], and [Parse] whatever the route, return
    the error. *)
Theorem embedded_nul_is_never_a_command cv n :
  wf_line cv -> In NUL (body cv) ->
  (forall c, IsEqual cv (lit (keyword c)) = false) /\
  (forall c v, ~ command_with_argument c (body cv) v) /\
  (exists out, ParseCommand cv n = (WrongLine, out)) /\
  (exists out, Parse cv n = Some (WrongLine, out)).
Proof.
  intros Hwf Hin. destruct (wf_line_inv _ Hwf) as [Hcv Hb].
  set (b := body cv) in *. clearbody b. subst cv.
  assert (Hcmd : exists out, ParseCommand (line_of b) n = (WrongLine, out)).
  { destruct (ParseCommand (line_of b) n) as [l out] eqn:E.
    destruct (line_is_wrong l) as [->|Hl]; [now exists out|exfalso].
    destruct (ParseCommand_command_inv b n _ _ Hb E Hl)
      as [(c' & [_ Hex] & _)|(c' & v' & _ & Hv & _)].
    - subst b. exact (nul_free_not_in _ (keyword_nul_free c') Hin).
    - exact (nul_free_not_in _ (command_with_argument_nul_free _ _ _ Hv) Hin). }
  split; [|split; [|split]].
  - intros c. apply embedded_nul_never_equal; auto. apply keyword_nul_free.
  - intros c v Hv.
    exact (nul_free_not_in _ (command_with_argument_nul_free _ _ _ Hv) Hin).
  - exact Hcmd.
  - unfold Parse. destruct (isalpha _).
    + destruct Hcmd as (out & ->). eauto.
    + unfold ParsePoly. rewrite illegal_character_found; [simpl; eauto|exact Hb|].
      apply Exists_exists. exists NUL. split; [exact Hin|reflexivity].
Qed.

Lemma embedded_nul_is_never_a_command_witness :
  exists out, Parse (line_of (text "AT 5" ++ NUL :: text "7")) 1 = Some (WrongLine, out).
Proof.
  assert (Hwf : wf_line (line_of (text "AT 5" ++ NUL :: text "7")))
    by (split; [reflexivity|unfold INT_MAX; simpl; lia]).
  apply (proj2 (proj2 (proj2 (embedded_nul_is_never_a_command _ 1 Hwf
           (or_intror (or_intror (or_intror (or_intror (or_introl eq_refl)))))
           )))).
Defined.

(* ================================================================= *)
(** ** Further properties of the parser *)

Ltac wf_concrete := split; [reflexivity|unfold INT_MAX; simpl; lia].

(** X1.  A literal that follows the grammar and whose numbers are in range
    is accepted, with the polynomial it denotes and no diagnostic. *)
Theorem literal_in_range_accepted cv n p :
  wf_line cv -> Polynomial (body cv) p -> in_range p = true ->
  Parse cv n = Some (PolyLine p, []).
Proof.
  intros Hwf Hp Hr. destruct (wf_line_inv _ Hwf) as [Hcv Hb].
  set (b := body cv) in *. clearbody b. subst cv.
  rewrite Parse_not_alpha by exact (Polynomial_not_alpha _ _ Hp).
  now rewrite (ParsePoly_literal _ n _ Hb Hp), Hr.
Qed.

Lemma literal_in_range_accepted_witness :
  Parse (line_of (text "(-1,2)+(3,0)")) 1 =
    Some (PolyLine (PolyAddMonos [MonoFromPoly (PolyFromCoeff (-1)) 2;
                                  MonoFromPoly (PolyFromCoeff 3) 0]), []).
Proof.
  apply (literal_in_range_accepted (line_of (text "(-1,2)+(3,0)")) 1).
  - wf_concrete.
  - apply TermSum_lit.
    apply (TermSum_more (text "(-1,2)") _ (text "(3,0)")).
    + apply (Term_lit (text "-1") (PolyFromCoeff (-1)) (text "2")).
      * apply (Coefficient_lit true (text "1")).
        split; [discriminate|repeat constructor].
      * split; [discriminate|repeat constructor].
    + apply TermSum_one.
      apply (Term_lit (text "3") (PolyFromCoeff 3) (text "0")).
      * apply (Coefficient_lit false (text "3")).
        split; [discriminate|repeat constructor].
      * split; [discriminate|repeat constructor].
  - reflexivity.
Defined.

Lemma exact_command_alpha b c :
  exact_command c b -> isalpha (idx (items (line_of b)) 0) = true.
Proof. intros [Hc ->]. destruct c; try discriminate Hc; reflexivity. Qed.

Lemma exact_command_unique b c c' :
  exact_command c b -> exact_command c' b -> c = c'.
Proof.
  intros [Hc ->] [Hc' Heq].
  destruct c; try discriminate Hc; destruct c'; try discriminate Hc';
    try reflexivity; discriminate Heq.
Qed.

Lemma Parse_command_route cv n l out :
  Parse cv n = Some (l, out) -> (forall p, l <> PolyLine p) -> l <> WrongLine ->
  isalpha (idx (items cv) 0) = true /\ ParseCommand cv n = (l, out).
Proof.
  unfold Parse. intros H Hp Hw. destruct (isalpha _).
  - split; [reflexivity|]. now injection H.
  - exfalso. destruct (ParsePoly_cases cv n) as [E|[p E]]; rewrite E in H.
    + unfold wrong_poly in H. injection H as <- _. now destruct Hw.
    + injection H as <- _. now destruct (Hp p).
Qed.

(** X2.  A command without argument is returned exactly for the line that
    is its keyword and nothing else: no trailing space, no other case. *)
Theorem exact_keyword_gives_command cv n c :
  wf_line cv ->
  Parse cv n = Some (CommandLine c, []) <-> exact_command c (body cv).
Proof.
  intros Hwf. destruct (wf_line_inv _ Hwf) as [Hcv Hb].
  set (b := body cv) in *. clearbody b. subst cv. split.
  - intros H.
    destruct (Parse_command_route _ _ _ _ H) as [_ Hc]; try discriminate.
    assert (Hl : CommandLine c <> WrongLine) by discriminate.
    destruct (ParseCommand_command_inv b n _ _ Hb Hc Hl)
      as [(c' & Hex & E & _)|(c' & v & _ & _ & E & _)]; [|discriminate].
    injection E as ->. exact Hex.
  - intros Hex. unfold Parse. rewrite (exact_command_alpha _ _ Hex).
    destruct (ParseCommand_cases b n Hb)
      as [(c' & Hex' & Hr)|[(c' & Hc' & H' & _)|(Hno & _)]].
    + now rewrite Hr, (exact_command_unique _ _ _ Hex Hex').
    + rewrite (exact_command_not_correct b c c' Hb Hex Hc') in H'. discriminate.
    + now destruct (Hno c).
Qed.

Lemma exact_keyword_gives_command_witness :
  Parse (line_of (text "IS_EQ")) 1 = Some (CommandLine IS_EQ, []).
Proof.
  apply (proj2 (exact_keyword_gives_command (line_of (text "IS_EQ")) 1 IS_EQ
                  ltac:(wf_concrete))).
  split; reflexivity.
Defined.

(** X3.  A line that starts with a letter, is no keyword of a command
    without argument, and does not start with DEG_BY, AT or COMPOSE followed
    by the end of the line or by white space, is answered WRONG COMMAND. *)
Theorem unknown_word_is_wrong_command cv n :
  wf_line cv -> isalpha (idx (items cv) 0) = true ->
  (forall c, ~ exact_command c (body cv)) ->
  (forall c r, takes_argument c = true -> body cv = text (keyword c) ++ r ->
               r <> [] /\ isspace (deref r) = false) ->
  Parse cv n = Some (WrongLine, PrintErrorMsg n WRONG_COMMAND).
Proof.
  intros Hwf Ha Hno Hnc. destruct (wf_line_inv _ Hwf) as [Hcv Hb].
  set (b := body cv) in *. clearbody b. subst cv.
  unfold Parse. rewrite Ha.
  destruct (ParseCommand_cases b n Hb)
    as [(c' & Hex' & _)|[(c' & Hc' & H' & _)|(_ & _ & Hr)]].
  - now destruct (Hno c').
  - apply IsCorrectCommand_iff in H'; [|apply keyword_nul_free|exact Hb].
    destruct H' as (r & Heq & Hr). destruct (Hnc c' r Hc' Heq) as [Hne Hs].
    destruct Hr as [->|Hr]; [now destruct Hne|congruence].
  - now rewrite Hr.
Qed.

Lemma unknown_word_is_wrong_command_witness :
  Parse (line_of (text "DEG_BYE 1")) 9 = Some (WrongLine, PrintErrorMsg 9 WRONG_COMMAND).
Proof.
  apply (unknown_word_is_wrong_command (line_of (text "DEG_BYE 1")) 9).
  - wf_concrete.
  - reflexivity.
  - intros c [Hc E]. rewrite body_line in E.
    destruct c; try discriminate Hc; discriminate E.
  - intros c r Hc E. rewrite body_line in E.
    destruct c; try discriminate Hc; try discriminate E.
    injection E as <-. split; [discriminate|reflexivity].
Defined.

(** X4.  The mutual recursion of [ParsePolyHelper] and [ParseMono] on a text
    of [len] bytes never nests deeper than [3 * len + 3] calls: with that
    bound or any larger one the parser answers, and the answer is the same. *)
Theorem ParsePolyHelper_depth_bound s fuel :
  (fuel_for s <= fuel)%nat ->
  ParsePolyHelper fuel s <> OutOfFuel /\
  ParsePolyHelper fuel s = ParsePolyHelper (fuel_for s) s.
Proof.
  intros Hf. pose proof (ParsePolyHelper_returns s) as Hret.
  assert (E : ParsePolyHelper fuel s = ParsePolyHelper (fuel_for s) s)
    by exact (proj1 (fuel_mono (fuel_for s)) _ _ _ eq_refl Hret Hf).
  split; [now rewrite E|exact E].
Qed.

Lemma ParsePolyHelper_depth_bound_witness :
  ParsePolyHelper 100 (text "((1,1),0)" ++ [NUL]) <> OutOfFuel /\
  ParsePolyHelper 100 (text "((1,1),0)" ++ [NUL]) =
  ParsePolyHelper (fuel_for (text "((1,1),0)" ++ [NUL])) (text "((1,1),0)" ++ [NUL]).
Proof.
  apply (ParsePolyHelper_depth_bound (text "((1,1),0)" ++ [NUL]) 100).
  vm_compute. repeat constructor.
Defined.

Lemma Polynomial_nonempty s p : Polynomial s p -> s <> [].
Proof. intros H. destruct (Polynomial_head _ _ H) as (c & t & -> & _). discriminate. Qed.

(** X5.  When [ParsePolyHelper] succeeds it has consumed a nonempty prefix of
    the text, a literal of the grammar whose value it returns, and [*end] is
    the rest of the text, which starts with ',' or with the terminator. *)
Theorem ParsePolyHelper_end fuel s p e :
  ParsePolyHelper fuel s = Parsed (p, e) ->
  exists pre, s = pre ++ e /\ pre <> [] /\ Polynomial pre p /\
              (deref e = NUL \/ deref e = ","%char).
Proof.
  intros H. destruct (proj1 (parser_sound fuel) _ _ _ H) as (pre & Heq & Hp & _ & Hst).
  exists pre. split; [exact Heq|]. split; [exact (Polynomial_nonempty _ _ Hp)|].
  split; [exact Hp|]. unfold is_stop in Hst. apply orb_true_iff in Hst.
  destruct Hst as [Hn|Hc]; [left|right]; now apply Ascii.eqb_eq.
Qed.

Lemma ParsePolyHelper_end_witness :
  exists pre, text "12,(3" = pre ++ text ",(3" /\ pre <> [] /\
              Polynomial pre (PolyFromCoeff 12) /\
              (deref (text ",(3") = NUL \/ deref (text ",(3") = ","%char).
Proof.
  apply (ParsePolyHelper_end 1 (text "12,(3") (PolyFromCoeff 12) (text ",(3")).
  reflexivity.
Defined.

(** X6.  When [ParseMono], called after a '(', succeeds, the text from that
    '(' up to [*end] is a term of the grammar without its closing ')', and
    [*end] points at that ')'. *)
Theorem ParseMono_end fuel s m e :
  ParseMono fuel s = Parsed (m, e) ->
  deref e = ")"%char /\
  exists pre, "("%char :: s = pre ++ tl e /\ Term pre m /\ mono_in_range m = true.
Proof.
  intros H. destruct (proj2 (proj2 (parser_sound fuel)) _ _ _ H)
    as (pre & Heq & Ht & Hr & Hc).
  split; [exact Hc|]. exists pre. auto.
Qed.

Lemma ParseMono_end_witness :
  deref (text ")+") = ")"%char /\
  exists pre, "("%char :: text "5,7)+" = pre ++ tl (text ")+") /\
              Term pre (MonoFromPoly (PolyFromCoeff 5) 7) /\
              mono_in_range (MonoFromPoly (PolyFromCoeff 5) 7) = true.
Proof.
  apply (ParseMono_end 2 (text "5,7)+") (MonoFromPoly (PolyFromCoeff 5) 7) (text ")+")).
  reflexivity.
Defined.

(** X7.  [ParseExp] returns an exponent only for a nonempty run of digits
    followed by ')': the value is the number written, between 0 and INT_MAX,
    and [*end] points at the ')'.  A sign or white space before the digits,
    which [strtol] alone would accept, is refused. *)
Theorem ParseExp_result s x e :
  ParseExp s = Parsed (x, e) ->
  exists ds, digits ds /\ s = ds ++ e /\ x = dec_value ds /\
             0 <= x <= INT_MAX /\ deref e = ")"%char.
Proof.
  intros H. destruct (ParseExp_inv _ _ _ H) as (ds & Hd & Heq & Hx & Hc & Hr).
  exists ds. unfold exp_in_range in Hr.
  split; [exact Hd|]. split; [exact Heq|]. split; [exact Hx|].
  split; [lia|exact Hc].
Qed.

Lemma ParseExp_result_witness :
  exists ds, digits ds /\ text "2147483647)" = ds ++ text ")" /\
             2147483647 = dec_value ds /\ 0 <= 2147483647 <= INT_MAX /\
             deref (text ")") = ")"%char.
Proof.
  apply (ParseExp_result (text "2147483647)") 2147483647 (text ")")).
  reflexivity.
Defined.




(** X9.  [HasIllegalCharacters] answers false exactly when every character
    of the line, up to its recorded end, is a digit or one of "-+(),"; a NUL
    stored before the end counts as illegal. *)
Theorem HasIllegalCharacters_iff_legal cv :
  wf_line cv ->
  (HasIllegalCharacters cv = false <-> legal_text (body cv)) /\
  (In NUL (body cv) -> HasIllegalCharacters cv = true).
Proof.
  intros Hwf. destruct (wf_line_inv _ Hwf) as [Hcv Hb].
  set (b := body cv) in *. clearbody b. subst cv. split.
  - now apply HasIllegalCharacters_false.
  - intros Hin. apply illegal_character_found; [exact Hb|].
    apply Exists_exists. exists NUL. now split.
Qed.

Lemma HasIllegalCharacters_iff_legal_witness :
  HasIllegalCharacters (line_of (text "1" ++ NUL :: text "2")) = true.
Proof.
  apply (proj2 (HasIllegalCharacters_iff_legal
                  (line_of (text "1" ++ NUL :: text "2")) ltac:(wf_concrete))).
  simpl. right. left. reflexivity.
Defined.

(** X10.  On a line without illegal characters the check of the parentheses
    changes nothing: whenever [ParsePolyHelper] parses such a line up to its
    end, the parentheses are balanced. *)
Theorem parsed_line_has_valid_parentheses cv fuel p e :
  wf_line cv -> HasIllegalCharacters cv = false ->
  ParsePolyHelper fuel (items cv) = Parsed (p, e) -> is_nul (deref e) = true ->
  AreParenthesesValid (items cv) = true.
Proof.
  intros Hwf Hill Hp Hn. destruct (wf_line_inv _ Hwf) as [Hcv Hb].
  set (b := body cv) in *. clearbody b. subst cv.
  apply HasIllegalCharacters_false in Hill; [|exact Hb].
  destruct (proj1 (parser_sound _) _ _ _ Hp) as (pre & Heq & Hpol & _ & _).
  rewrite items_line in Heq |- *.
  pose proof (legal_nul_free _ (Polynomial_legal _ _ Hpol)) as Hpre.
  pose proof (legal_nul_free _ Hill) as Hnb.
  assert (pre = b) as ->.
  { destruct e as [|x e].
    - rewrite app_nil_r in Heq. subst pre.
      apply Forall_app in Hpre. destruct Hpre as [_ Hpre].
      inversion Hpre; subst. discriminate.
    - simpl in Hn. apply Ascii.eqb_eq in Hn. subst x.
      symmetry. now apply (nul_split b pre [] e). }
  exact (Polynomial_parens _ _ Hpol).
Qed.

Lemma parsed_line_has_valid_parentheses_witness :
  AreParenthesesValid (items (line_of (text "((1,1),0)"))) = true.
Proof.
  apply (parsed_line_has_valid_parentheses (line_of (text "((1,1),0)")) 7
           (PolyAddMonos
              [MonoFromPoly (PolyAddMonos [MonoFromPoly (PolyFromCoeff 1) 1]) 0])
           [NUL]).
  - wf_concrete.
  - reflexivity.
  - reflexivity.
  - reflexivity.
Defined.

Lemma argument_starts_with arg c v :
  argument_of c arg v ->
  match c with
  | AT => IsDigitOrMinus (deref arg) = true
  | _ => isdigit (deref arg) = true
  end.
Proof.
  destruct c; simpl; try contradiction.
  - apply unsigned_argument_head.
  - apply signed_argument_head.
  - apply unsigned_argument_head.
Qed.

Lemma keyword_then_line_correct b c w rest :
  Z.of_nat (length b) < INT_MAX -> b = text (keyword c) ++ w :: rest ->
  isspace w = true ->
  IsCorrectCommand (line_of b) (lit (keyword c)) = true.
Proof.
  intros Hb -> Hw. apply IsCorrectCommand_iff; [apply keyword_nul_free|exact Hb|].
  exists (w :: rest). split; [reflexivity|now right].
Qed.

(** X11.  DEG_BY and COMPOSE refuse an argument that does not start with a
    digit: a sign, which [strtoull] alone would accept, gives the argument
    message of the command, also for [-0] and [+1]. *)
Theorem unsigned_argument_takes_no_sign cv n c s rest :
  wf_line cv -> c = DEG_BY \/ c = COMPOSE ->
  body cv = text (keyword c) ++ " "%char :: s :: rest -> isdigit s = false ->
  Parse cv n = Some (WrongLine, PrintErrorMsg n (argument_message c)).
Proof.
  intros Hwf Hc Heq Hs. destruct (wf_line_inv _ Hwf) as [Hcv Hb].
  set (b := body cv) in *. clearbody b. subst cv.
  assert (Ht : takes_argument c = true) by (destruct Hc as [->| ->]; reflexivity).
  assert (H : IsCorrectCommand (line_of b) (lit (keyword c)) = true)
    by (apply (keyword_then_line_correct b c " "%char (s :: rest) Hb Heq); reflexivity).
  unfold Parse. rewrite (correct_command_alpha b c Hb Ht H).
  destruct (argument_command_line b n c Hb Ht H) as [(v & Hv & _)|(_ & Hr)];
    [exfalso|now rewrite Hr].
  destruct Hv as (arg & Heq' & Hv). rewrite Heq in Heq'.
  apply app_inv_head in Heq'. injection Heq' as <-.
  pose proof (argument_starts_with _ _ _ Hv) as Hh.
  destruct Hc as [->| ->]; simpl in Hh; congruence.
Qed.

Lemma unsigned_argument_takes_no_sign_witness :
  Parse (line_of (text "DEG_BY -0")) 5 =
    Some (WrongLine, PrintErrorMsg 5 (argument_message DEG_BY)).
Proof.
  apply (unsigned_argument_takes_no_sign (line_of (text "DEG_BY -0")) 5 DEG_BY
           "-"%char (text "0")).
  - wf_concrete.
  - left. reflexivity.
  - reflexivity.
  - reflexivity.
Defined.

(** X12.  A keyword that takes an argument, followed by a white-space
    character other than a space (a tab, say), is still that command, with a
    wrong argument: the answer is the argument message of the command,
    whatever follows. *)
Theorem keyword_and_other_white_space cv n c w rest :
  wf_line cv -> takes_argument c = true ->
  body cv = text (keyword c) ++ w :: rest ->
  isspace w = true -> w <> " "%char ->
  Parse cv n = Some (WrongLine, PrintErrorMsg n (argument_message c)).
Proof.
  intros Hwf Ht Heq Hw Hns. destruct (wf_line_inv _ Hwf) as [Hcv Hb].
  set (b := body cv) in *. clearbody b. subst cv.
  assert (H : IsCorrectCommand (line_of b) (lit (keyword c)) = true)
    by exact (keyword_then_line_correct b c w rest Hb Heq Hw).
  unfold Parse. rewrite (correct_command_alpha b c Hb Ht H).
  destruct (argument_command_line b n c Hb Ht H) as [(v & Hv & _)|(_ & Hr)];
    [exfalso|now rewrite Hr].
  destruct Hv as (arg & Heq' & Hv). rewrite Heq in Heq'.
  apply app_inv_head in Heq'. injection Heq' as E _. now destruct Hns.
Qed.

Lemma keyword_and_other_white_space_witness :
  Parse (line_of (text "AT" ++ "009"%char :: text "5")) 2 =
    Some (WrongLine, PrintErrorMsg 2 (argument_message AT)).
Proof.
  apply (keyword_and_other_white_space
           (line_of (text "AT" ++ "009"%char :: text "5")) 2 AT "009"%char (text "5")).
  - wf_concrete.
  - reflexivity.
  - reflexivity.
  - reflexivity.
  - discriminate.
Defined.

(** X13.  The kind of the answer follows the first character: a polynomial
    is returned only for a line that does not start with a letter, a command
    only for a line that does. *)
Theorem result_kind_follows_route cv n :
  (forall p out, Parse cv n = Some (PolyLine p, out) ->
     isalpha (idx (items cv) 0) = false) /\
  (forall c out, Parse cv n = Some (CommandLine c, out) ->
     isalpha (idx (items cv) 0) = true) /\
  (forall c v out, Parse cv n = Some (CommandLineWithArg c v, out) ->
     isalpha (idx (items cv) 0) = true).
Proof.
  unfold Parse. destruct (isalpha (idx (items cv) 0)); repeat split; intros;
    try reflexivity; exfalso.
  - destruct (ParseCommand_shape cv n) as [(c & Hc)|[(c & v & Hc)|(m & _ & Hc)]];
      rewrite Hc in H; discriminate.
  - destruct (ParsePoly_cases cv n) as [E|[p E]]; rewrite E in H; discriminate.
  - destruct (ParsePoly_cases cv n) as [E|[p E]]; rewrite E in H; discriminate.
Qed.

(** X14.  The argument returned with a command is in the domain of that
    command: between 0 and [ULLONG_MAX] for DEG_BY and COMPOSE, in the signed
    64-bit range for AT; no other command is returned with an argument. *)
Theorem returned_argument_in_domain cv n c v out :
  wf_line cv -> Parse cv n = Some (CommandLineWithArg c v, out) ->
  takes_argument c = true /\
  (if match c with AT => true | _ => false end
   then LLONG_MIN <= v <= LLONG_MAX else 0 <= v <= ULLONG_MAX).
Proof.
  intros Hwf H. destruct (wf_line_inv _ Hwf) as [Hcv Hb].
  set (b := body cv) in *. clearbody b. subst cv.
  destruct (Parse_command_route _ _ _ _ H) as [_ Hc]; try discriminate.
  assert (Hl : CommandLineWithArg c v <> WrongLine) by discriminate.
  destruct (ParseCommand_command_inv b n _ _ Hb Hc Hl)
    as [(c' & _ & E & _)|(c' & v' & Ht & (arg & _ & Hv) & E & _)]; [discriminate|].
  injection E as -> ->. split; [exact Ht|].
  destruct c'; simpl in Hv; try contradiction.
  - destruct Hv as ([_ Hd] & -> & Hle). split; [now apply dec_value_nonneg|exact Hle].
  - destruct Hv as (neg & ds & _ & _ & _ & Hr). exact Hr.
  - destruct Hv as ([_ Hd] & -> & Hle). split; [now apply dec_value_nonneg|exact Hle].
Qed.

Lemma returned_argument_in_domain_witness :
  takes_argument AT = true /\
  LLONG_MIN <= -9223372036854775808 <= LLONG_MAX.
Proof.
  apply (returned_argument_in_domain (line_of (text "AT -9223372036854775808")) 1
           AT (-9223372036854775808) []).
  - wf_concrete.
  - reflexivity.
Defined.

(** X15.  [IsPrefix] holds of a keyword and a line exactly when the line
    starts with the keyword; a line shorter than the keyword never does,
    the comparison stopping at its terminator. *)
Theorem IsPrefix_iff_starts_with b kw :
  nul_free (text kw) ->
  (IsPrefix (lit kw) (items (line_of b)) = true <-> exists r, b = text kw ++ r) /\
  ((length b < length (text kw))%nat ->
   IsPrefix (lit kw) (items (line_of b)) = false).
Proof.
  intros Hk. split; [now apply IsPrefix_line|].
  intros Hl. destruct (IsPrefix _ _) eqn:E; [|reflexivity].
  apply IsPrefix_line in E; [|exact Hk]. destruct E as (r & ->).
  rewrite length_app in Hl. lia.
Qed.

Lemma IsPrefix_iff_starts_with_witness :
  IsPrefix (lit "COMPOSE") (items (line_of (text "COMP"))) = false.
Proof.
  apply (proj2 (IsPrefix_iff_starts_with (text "COMP") "COMPOSE"
                  ltac:(repeat constructor))).
  simpl. lia.
Defined.
